(** * development_script.py: comment normalisation, YAML canonicalisation
      and test-file naming

    A shallow embedding of [src/development_script.py].

    - Python [str] values are lists of Unicode code points ([pystr]).
    - The compiled pattern [RE_MULTILINE_REMARK] is kept as a regular
      expression and run by a small greedy backtracking matcher, so that
      [re.findall] is modelled rather than assumed.
    - [CommentToken] objects live in a store indexed by object identity;
      the functions that update comments "in place" thread that store.
    - Exceptions are an outcome next to the state that was reached when
      they were raised. *)

From Stdlib Require Import String Ascii DecimalString.
From stdpp Require Import base option list gmap.

Set Warnings "-register-all".

Local Open Scope list_scope.
Local Open Scope N_scope.

(** ** Strings *)

Definition pystr := list N.

(** A literal, written with Rocq's string notation. *)
Definition py (s : string) : pystr := map N_of_ascii (list_ascii_of_string s).

Definition NL : N := 10.          (* newline *)
Definition SP : N := 32.          (* space *)
Definition HASH : N := 35.        (* octothorpe *)
Definition SLASH : N := 47.       (* slash *)
Definition UNDERSCORE : N := 95.  (* underscore *)

(** Unicode whitespace as CPython decides it ([Py_UNICODE_ISSPACE]); both
    [str.strip] and the pattern class [\s] on [str] patterns use it. *)
Definition is_space (c : N) : bool :=
  ((9 <=? c) && (c <=? 13)) || ((28 <=? c) && (c <=? 32))
  || (c =? 133) || (c =? 160) || (c =? 5760)
  || ((8192 <=? c) && (c <=? 8202))
  || (c =? 8232) || (c =? 8233) || (c =? 8239) || (c =? 8287) || (c =? 12288).

Fixpoint span (p : N -> bool) (s : pystr) : pystr * pystr :=
  match s with
  | [] => ([], [])
  | c :: s' => if p c then let '(a, b) := span p s' in (c :: a, b) else ([], s)
  end.

Fixpoint lstrip (s : pystr) : pystr :=
  match s with
  | [] => []
  | c :: s' => if is_space c then lstrip s' else s
  end.

Definition rstrip (s : pystr) : pystr := rev (lstrip (rev s)).

Definition strip (s : pystr) : pystr := rstrip (lstrip s).

(** [s.partition(sep)] for a one-character separator. *)
Fixpoint partition (sep : N) (s : pystr) : pystr * pystr * pystr :=
  match s with
  | [] => ([], [], [])
  | c :: s' =>
      if c =? sep then ([], [sep], s')
      else let '(a, m, b) := partition sep s' in
           match m with
           | [] => (s, [], [])
           | _ => (c :: a, m, b)
           end
  end.

(** [s.replace(old, new)] for one-character [old] and [new]. *)
Definition replace (old new : N) (s : pystr) : pystr :=
  map (fun c => if c =? old then new else c) s.

(** ** Regular expressions *)

Module Re.

(** Character classes of the pattern language that the script uses. *)
Inductive cls :=
| Any            (* [.] without DOTALL: anything but a newline *)
| Space          (* [\s] *)
| Lit (c : N).   (* a literal character *)

Definition cls_matches (k : cls) (c : N) : bool :=
  match k with
  | Any => negb (c =? NL)
  | Space => is_space c
  | Lit d => c =? d
  end.

Inductive atom :=
| One (k : cls)     (* one character of the class *)
| Star (k : cls).   (* greedy [k*] *)

(** A pattern made of two capturing groups, written one after the other. *)
Definition pattern : Type := list atom * list atom.

(** Greedy backtracking match of a sequence of atoms at the start of [s]:
    the text consumed by each atom and the unread rest.  A star first
    tries to take one more character and falls back to stopping where it
    is when the rest of the pattern then fails. *)
Fixpoint match_atoms (ats : list atom) (s : pystr)
  : option (list pystr * pystr) :=
  match ats with
  | [] => Some ([], s)
  | One k :: ats' =>
      match s with
      | c :: s' =>
          if cls_matches k c then
            match match_atoms ats' s' with
            | Some (caps, rest) => Some ([c] :: caps, rest)
            | None => None
            end
          else None
      | [] => None
      end
  | Star k :: ats' =>
      (fix star (s : pystr) : option (list pystr * pystr) :=
         let stop :=
           match match_atoms ats' s with
           | Some (caps, rest) => Some ([] :: caps, rest)
           | None => None
           end in
         match s with
         | c :: s' =>
             if cls_matches k c then
               match star s' with
               | Some (w :: caps, rest) => Some ((c :: w) :: caps, rest)
               | _ => stop
               end
             else stop
         | [] => stop
         end) s
  end.

(** [pattern.match(s)]: the two groups and the unread rest. *)
Definition match_here (re : pattern) (s : pystr)
  : option (pystr * pystr * pystr) :=
  match match_atoms (re.1 ++ re.2) s with
  | Some (caps, rest) =>
      Some (concat (take (length re.1) caps),
            concat (drop (length re.1) caps), rest)
  | None => None
  end.

(** [re.findall]: scan from the left; at each position try a match; after
    a match go on from its end, otherwise move one character on.  What
    [re.findall] does after an empty match is not modelled: the pattern of
    the script has no empty match ([match_remark_shorter]).  Every step
    then shortens the text, so [S (length s)] steps are enough
    ([findall_fuel_enough]). *)
Fixpoint findall_fuel (fuel : nat) (re : pattern) (s : pystr)
  : list (pystr * pystr) :=
  match fuel with
  | O => []
  | S fuel' =>
      match match_here re s with
      | Some (g1, g2, rest) => (g1, g2) :: findall_fuel fuel' re rest
      | None =>
          match s with
          | [] => []
          | _ :: s' => findall_fuel fuel' re s'
          end
      end
  end.

Definition findall (re : pattern) (s : pystr) : list (pystr * pystr) :=
  findall_fuel (S (length s)) re s.

End Re.

(** ** The comment normaliser *)

(** The compiled pattern of the script.  Group 1: any run of non-newline
    characters, a newline, any run of whitespace, an octothorpe.  Group 2:
    any run of non-newline characters. *)
Definition RE_MULTILINE_REMARK : Re.pattern :=
  ([Re.Star Re.Any; Re.One (Re.Lit NL); Re.Star Re.Space; Re.One (Re.Lit HASH)],
   [Re.Star Re.Any]).

Definition ensure_spacing_for_multiline_comment (remark : pystr) : pystr :=
  let remarks := Re.findall RE_MULTILINE_REMARK remark in
  let remarks := match remarks with [] => [([], remark)] | _ => remarks end in
  concat (map (fun entry => entry.1 ++ [SP] ++ strip entry.2) remarks).

(** The value that [ensure_space_after_octothorpe] assigns to
    [comment.value], as a function of the old value. *)
Definition spaced_value (value : pystr) : pystr :=
  let '(space, octothorpe, remark) := partition HASH value in
  let remark_formatted := ensure_spacing_for_multiline_comment remark in
  space ++ py "# " ++ lstrip remark_formatted ++ [NL].

(** ** Exceptions, comment tokens and the comment store *)

Inductive exn :=
  AttributeError | KeyError | TypeError | NameError | ValueError | OSError.

(** How a call that returns [None] ends. *)
Inductive outcome := Returned | Raised (e : exn).

(** [CommentToken] objects by identity, each with its [value]. *)
Abbreviation store := (gmap nat pystr).

(** What sits in a comment list of [ca.items]: [None], a token, or a list
    of such things. *)
Inductive cslot :=
| CNone
| CTok (t : nat)
| CList (l : list cslot).

Definition ensure_space_after_octothorpe (comment : cslot) (σ : store)
  : store * outcome :=
  match comment with
  | CNone => (σ, Returned)
  | CTok t => (alter spaced_value t σ, Returned)
  | CList _ => (σ, Raised AttributeError)   (* a list has no [value] *)
  end.

Section Loops.
Context {A S : Type}.
Variable body : A -> S -> S * outcome.

(** A [for] loop over [l] whose body updates the state; an exception
    leaves the loop with the state reached so far. *)
Fixpoint for_each (l : list A) (σ : S) : S * outcome :=
  match l with
  | [] => (σ, Returned)
  | x :: l' =>
      match body x σ with
      | (σ', Returned) => for_each l' σ'
      | r => r
      end
  end.
End Loops.

Definition ensure_space_comments (comments : list (list cslot)) (σ : store)
  : store * outcome :=
  let comment_objects := concat comments in
  for_each
    (fun comment =>
       match comment with
       | CList l => for_each ensure_space_after_octothorpe l
       | _ => ensure_space_after_octothorpe comment
       end)
    comment_objects σ.

(** ** Documents *)

Inductive pykey := KStr (s : pystr) | KInt (i : Z).

#[global] Instance pykey_eq_dec : EqDecision pykey.
Proof. solve_decision. Defined.

(** [ca.items]: comment lists by key, in insertion order. *)
Definition registry := list (pykey * list cslot).

(** The Python values a document is made of.  A list or dict carries its
    comment registry when it is a [CommentedSeq] or [CommentedMap] and
    [None] when it is a plain [list] or [dict].  [PDQ v] is
    [DoubleQuotedScalarString(v)], a [str]. *)
Inductive pyval :=
| PNone
| PStr (s : pystr)
| PNum (n : Z)
| PDQ (v : pyval)
| PList (ca : option registry) (items : list pyval)
| PDict (ca : option registry) (items : list (pykey * pyval)).

Definition is_dict_or_list (v : pyval) : bool :=
  match v with
  | PList _ _ | PDict _ _ => true
  | _ => false
  end.

(** [isinstance(value, (str, numbers.Number))] *)
Definition is_str_or_number (v : pyval) : bool :=
  match v with
  | PStr _ | PNum _ | PDQ _ => true
  | _ => false
  end.

Definition val_of_key (k : pykey) : pyval :=
  match k with
  | KStr s => PStr s
  | KInt i => PNum i
  end.

Fixpoint dict_get (k : pykey) (d : list (pykey * pyval)) : option pyval :=
  match d with
  | [] => None
  | (k', v) :: d' => if decide (k' = k) then Some v else dict_get k d'
  end.

(** [d[k] = v]: the value of an existing key is replaced where it stands, a
    new key goes to the end. *)
Fixpoint dict_set (k : pykey) (v : pyval) (d : list (pykey * pyval))
  : list (pykey * pyval) :=
  match d with
  | [] => [(k, v)]
  | (k', v') :: d' =>
      if decide (k' = k) then (k', v) :: d' else (k', v') :: dict_set k v d'
  end.

Fixpoint update_yaml_comments (yaml_object : pyval) (σ : store) {struct yaml_object}
  : store * outcome :=
  match yaml_object with
  | PDict (Some ca_items) items =>
      match ensure_space_comments (map snd ca_items) σ with
      | (σ1, Returned) =>
          for_each
            (fun (kv : pykey * pyval) σ' =>
               let '(_, entry) := kv in
               if is_dict_or_list entry then update_yaml_comments entry σ'
               else (σ', Returned))
            items σ1
      | r => r
      end
  | PList (Some ca_items) items =>
      match ensure_space_comments (map snd ca_items) σ with
      | (σ1, Returned) =>
          for_each
            (fun entry σ' =>
               if is_dict_or_list entry then update_yaml_comments entry σ'
               else (σ', Returned))
            items σ1
      | r => r
      end
  | _ => (σ, Raised AttributeError)   (* no attribute [ca] *)
  end.

(** ** The canonical writer *)

(** What [YAML_OBJECT.dump] is given: the document and the values its
    comment tokens have at that moment. *)
Record dumped := Dumped { dumped_doc : pyval; dumped_comments : store }.

(** The state outside the arguments: the comment tokens and the files.  The
    environment decides whether a file can be opened for writing and
    whether a document can be dumped, and with which exception it cannot.
    A file holds what was dumped into it, or [None] when it was opened and
    the dump did not come to its end. *)
Record world := World {
  comments : store;
  open_error : pystr -> option exn;
  dump_error : dumped -> option exn;
  files : gmap pystr (option dumped)
}.

Inductive result (A : Type) := Ok (a : A) | Err (e : exn).
Arguments Ok {A} a.
Arguments Err {A} e.

(** The replacement of one field value: [DQ(value)] for a string or number,
    otherwise the list comprehension over [value]. *)
Definition quoted (value : pyval) : result pyval :=
  if is_str_or_number value then Ok (PDQ value)
  else match value with
       | PList _ items => Ok (PList None (map PDQ items))
       | PDict _ items =>
           Ok (PList None (map (fun kv => PDQ (val_of_key kv.1)) items))
       | _ => Err TypeError          (* [None] is not iterable *)
       end.

(** The body of the loop over [entry.items()]: [entry[key] = ...]. *)
Definition quote_field (kv : pykey * pyval) (entry : list (pykey * pyval))
  : list (pykey * pyval) * outcome :=
  let '(key, value) := kv in
  match quoted value with
  | Ok q => (dict_set key q entry, Returned)
  | Err e => (entry, Raised e)
  end.

Definition quote_entry (entry : pyval) : pyval * outcome :=
  match entry with
  | PDict ca items =>
      let '(items', o) := for_each quote_field items items in
      (PDict ca items', o)
  | _ => (entry, Raised AttributeError)   (* no attribute [items] *)
  end.

(** The loop over the entries; each entry is updated where it stands and an
    exception leaves the later entries as they were. *)
Fixpoint quote_entries (entries : list pyval) : list pyval * outcome :=
  match entries with
  | [] => ([], Returned)
  | entry :: rest =>
      match quote_entry entry with
      | (entry', Returned) =>
          let '(rest', o) := quote_entries rest in (entry' :: rest', o)
      | (entry', Raised e) => (entry' :: rest, Raised e)
      end
  end.

(** Whether a [str] value is the empty string. *)
Fixpoint str_is_empty (v : pyval) : bool :=
  match v with
  | PStr [] => true
  | PDQ v' => str_is_empty v'
  | _ => false
  end.

(** The first loop of [ensure_yaml_standards], over
    [parsed_object["parsed_sample"]]. *)
Definition quote_sample (sample : pyval) : pyval * outcome :=
  match sample with
  | PList ca entries =>
      let '(entries', o) := quote_entries entries in (PList ca entries', o)
  | PDict _ [] => (sample, Returned)
  | PDict _ (_ :: _) => (sample, Raised AttributeError)  (* a key has no [items] *)
  | PStr _ | PDQ _ =>
      if str_is_empty sample then (sample, Returned)
      else (sample, Raised AttributeError)               (* a character has no [items] *)
  | PNum _ | PNone => (sample, Raised TypeError)         (* not iterable *)
  end.

Definition quote_pass (parsed_object : pyval) : pyval * outcome :=
  match parsed_object with
  | PDict ca items =>
      match dict_get (KStr (py "parsed_sample")) items with
      | None => (parsed_object, Raised KeyError)
      | Some sample =>
          let '(sample', o) := quote_sample sample in
          (PDict ca (dict_set (KStr (py "parsed_sample")) sample' items), o)
      end
  | _ => (parsed_object, Raised TypeError)   (* not indexable by a string *)
  end.

(** The last two lines of [ensure_yaml_standards]: the file is opened for
    writing and the document dumped into it. *)
Definition write_yaml (parsed_object : pyval) (output_path : pystr) (w : world)
  : world * outcome :=
  match open_error w output_path with
  | Some e => (w, Raised e)
  | None =>
      let d := Dumped parsed_object (comments w) in
      match dump_error w d with
      | Some e =>
          (World (comments w) (open_error w) (dump_error w)
             (<[output_path := None]> (files w)), Raised e)
      | None =>
          (World (comments w) (open_error w) (dump_error w)
             (<[output_path := Some d]> (files w)), Returned)
      end
  end.

(** [ensure_yaml_standards]: the argument as it is left, the world as it is
    left, and how the call ended. *)
Definition ensure_yaml_standards (parsed_object : pyval) (output_path : pystr)
    (w : world) : pyval * world * outcome :=
  match quote_pass parsed_object with
  | (po, Raised e) => (po, w, Raised e)
  | (po, Returned) =>
      let '(σ, o) := update_yaml_comments po (comments w) in
      let w1 := World σ (open_error w) (dump_error w) (files w) in
      match o with
      | Returned | Raised AttributeError =>      (* [except AttributeError: pass] *)
          let '(w2, o2) := write_yaml po output_path w1 in (po, w2, o2)
      | Raised e => (po, w1, Raised e)
      end
  end.

(** ** Test-file names *)

Definition startswith_sep (b : pystr) : bool :=
  match b with
  | c :: _ => c =? SLASH
  | [] => false
  end.

Definition endswith_sep (path : pystr) : bool :=
  match last path with
  | Some c => c =? SLASH
  | None => false
  end.

(** The body of the loop of [posixpath.join]: one more component [b]. *)
Definition join_onto (path b : pystr) : pystr :=
  if startswith_sep b then b
  else if bool_decide (path = []) || endswith_sep path then path ++ b
  else path ++ [SLASH] ++ b.

(** [os.path.join] on a POSIX system ([posixpath.join]). *)
Definition os_path_join (a : pystr) (p : list pystr) : pystr :=
  foldl join_onto a p.

(** [str(index)] for an [int]. *)
Definition str_of_int (i : Z) : pystr := py (NilZero.string_of_int (Z.to_int i)).

(** [get_test_files].  The body reads the name [vendor_os], which is not the
    parameter [vender_os]: it is looked up in the module, where it may be
    unbound. *)
Definition get_test_files (vendor_os : option pystr)
    (vender_os command : pystr) (index : Z) : result (pystr * pystr) :=
  match vendor_os with
  | None => Err NameError
  | Some vendor_os =>
      let base_name := vendor_os ++ py "_" ++ replace SP UNDERSCORE command in
      let raw_base_name :=
        if (1 <? index)%Z then base_name ++ str_of_int index else base_name in
      let raw_file :=
        os_path_join (py "tests")
          [vendor_os; replace SP UNDERSCORE command; raw_base_name ++ py ".raw"] in
      let template_file :=
        os_path_join (py "ntc_templates")
          [py "templates"; base_name ++ py ".textfsm"] in
      Ok (raw_file, template_file)
  end.

(** ** Notions used to state the properties *)

Definition not_nl (c : N) : bool := negb (c =? NL).

Definition no_nl (s : pystr) : bool := forallb not_nl s.

Definition all_space (s : pystr) : bool := forallb is_space s.

(** No leading and no trailing whitespace. *)
Definition trimmed (s : pystr) : Prop := strip s = s.

(** No whitespace at the front. *)
Definition lclean (s : pystr) : Prop :=
  match s with
  | [] => True
  | c :: _ => is_space c = false
  end.

(** The match of [RE_MULTILINE_REMARK] at the start of [s], read off the
    text directly: the rest of the line, the newline, the whitespace after
    it, the octothorpe, the rest of that line. *)
Definition match_remark (s : pystr) : option (pystr * pystr * pystr) :=
  let '(l, s1) := span not_nl s in
  match s1 with
  | [] => None
  | _ :: s2 =>
      let '(w, s3) := span is_space s2 in
      match s3 with
      | [] => None
      | h :: s4 =>
          if h =? HASH then
            let '(g, rest) := span not_nl s4 in
            Some (l ++ [NL] ++ w ++ [HASH], g, rest)
          else None
      end
  end.

(** Continuation markers of a comment text: the octothorpes that are the
    first character after a newline that is not whitespace.  [fresh] says
    that a newline was read and only whitespace since. *)
Fixpoint count_markers (fresh : bool) (s : pystr) : nat :=
  match s with
  | [] => O
  | c :: s' =>
      if c =? NL then count_markers true s'
      else if is_space c then count_markers fresh s'
      else if (c =? HASH) && fresh then S (count_markers false s')
      else count_markers false s'
  end.

Definition continuation_markers (s : pystr) : nat := count_markers false s.

(** A text made of comment lines: the first character after a newline that
    is not whitespace is an octothorpe, so that every line after the first
    is blank or begins, after whitespace, with an octothorpe.  With [fresh]
    set the first line is held to the same. *)
Fixpoint comment_lines (fresh : bool) (s : pystr) : bool :=
  match s with
  | [] => true
  | c :: s' =>
      if c =? NL then comment_lines true s'
      else if is_space c then comment_lines fresh s'
      else if fresh then (c =? HASH) && comment_lines false s'
      else comment_lines false s'
  end.

(** What follows a marker that has exactly one space after it: a space, and
    then the end of the text, a newline, or a character that is not
    whitespace. *)
Definition one_space (b : pystr) : bool :=
  match b with
  | c :: rest =>
      (c =? SP)
      && match rest with
         | [] => true
         | d :: _ => (d =? NL) || negb (is_space d)
         end
  | [] => false
  end.

(** Every marker of the text has exactly one space after it.  The markers
    are the octothorpes that are the first character of their line that is
    not whitespace (blank lines before them left aside); with [fresh] set
    the first line counts like the others. *)
Fixpoint markers_spaced (fresh : bool) (s : pystr) : bool :=
  match s with
  | [] => true
  | c :: s' =>
      if c =? NL then markers_spaced true s'
      else if is_space c then markers_spaced fresh s'
      else if (c =? HASH) && fresh then one_space s' && markers_spaced false s'
      else markers_spaced false s'
  end.


(** One unit of the normaliser's output: the text kept up to and including
    a continuation marker, and the trimmed remark after it. *)
Record unit_ := Unit { u_line : pystr; u_indent : pystr; u_text : pystr }.



(** What ends a line: the end of the text or a newline. *)
Definition line_end (rest : pystr) : Prop :=
  match rest with
  | [] => True
  | c :: _ => c = NL
  end.

(** One piece of a text as the normaliser reads it: text that it skips,
    then the rest of a line, the newline, the whitespace before the marker,
    the marker, and the remark after the marker. *)
Record piece := Piece {
  p_skipped : pystr; p_line : pystr; p_indent : pystr; p_remark : pystr
}.

Definition source (p : piece) : pystr :=
  p_skipped p ++ p_line p ++ [NL] ++ p_indent p ++ [HASH] ++ p_remark p.

(** The unit that the normaliser makes of a piece: the line, the newline,
    the indentation and the marker as they are, and the remark stripped. *)
Definition unit_of (p : piece) : unit_ :=
  Unit (p_line p) (p_indent p) (strip (p_remark p)).

(** The skipped text is made of whole lines, the line and the remark hold
    no newline, the indentation is whitespace. *)
Definition piece_ok (p : piece) : Prop :=
  (p_skipped p = [] \/ last (p_skipped p) = Some NL)
  /\ no_nl (p_line p) = true /\ all_space (p_indent p) = true
  /\ no_nl (p_remark p) = true.

(** The pieces one after the other, and the text after the last remark. *)
Fixpoint pieces_text (ps : list piece) (rest : pystr) : pystr :=
  match ps with
  | [] => rest
  | p :: ps' => source p ++ pieces_text ps' rest
  end.

(** The remark of every piece runs to the end of its line. *)
Fixpoint remarks_whole (ps : list piece) (rest : pystr) : Prop :=
  match ps with
  | [] => True
  | p :: ps' => line_end (pieces_text ps' rest) /\ remarks_whole ps' rest
  end.



(** The same with the text before the first continuation left free, as the
    normaliser receives it (the first marker is cut off by its caller). *)
Definition continuation (t : pystr) : pystr := [NL; HASH; SP] ++ t.

Definition normalized_remark (first : pystr) (ts : list pystr) : pystr :=
  first ++ concat (map continuation ts).

(** The tokens a walk over a document reaches, in the order of the walk. *)
Definition slot_tokens (c : cslot) : list nat :=
  match c with
  | CNone => []
  | CTok t => [t]
  | CList l => concat (map (fun c' => match c' with CTok t => [t] | _ => [] end) l)
  end.

Definition registry_tokens (r : registry) : list nat :=
  concat (map slot_tokens (concat (map snd r))).

Definition ca_tokens (ca : option registry) : list nat :=
  match ca with
  | Some r => registry_tokens r
  | None => []
  end.

Fixpoint doc_tokens (y : pyval) : list nat :=
  match y with
  | PDict ca items =>
      ca_tokens ca ++ concat (map (fun kv : pykey * pyval =>
                                     let '(_, e) := kv in doc_tokens e) items)
  | PList ca items => ca_tokens ca ++ concat (map doc_tokens items)
  | _ => []
  end.




(** Every token of the list rewritten once, one after the other. *)
Definition normalize_tokens (ts : list nat) (σ : store) : store :=
  foldl (fun σ' t => alter spaced_value t σ') σ ts.


(** How a walk can end: nothing but [AttributeError] comes out of it. *)
Definition walk_outcome (o : outcome) : Prop :=
  o = Returned \/ o = Raised AttributeError.

(** The quoting the specification asks for: a string or number wrapped, a
    list wrapped element by element. *)
Definition wrap_value (v : pyval) : pyval :=
  match v with
  | PList _ l => PList None (map PDQ l)
  | _ => PDQ v
  end.

Definition wrap_record (e : pyval) : pyval :=
  match e with
  | PDict ca fields => PDict ca (map (fun kv => (kv.1, wrap_value kv.2)) fields)
  | _ => e
  end.

Definition record_keys (e : pyval) : list pykey :=
  match e with
  | PDict _ fields => map fst fields
  | _ => []
  end.

Definition field_ok (v : pyval) : bool :=
  match v with
  | PStr _ | PNum _ | PDQ _ | PList _ _ => true
  | _ => false
  end.

(** A record: a mapping, its keys distinct as in every [dict], its values
    strings, numbers or lists. *)
Definition record_ok (e : pyval) : Prop :=
  match e with
  | PDict _ fields =>
      NoDup (map fst fields) /\ Forall (fun kv => field_ok kv.2 = true) fields
  | _ => False
  end.


(** A name that is one path component: not empty, no separator at either
    end. *)
Definition plain_name (s : pystr) : bool :=
  negb (bool_decide (s = [])) && negb (startswith_sep s) && negb (endswith_sep s).

(** ** The documents of the docstrings *)

Definition ex_remark : pystr :=
  py "comment 11" ++ [NL] ++ py "#        comment 12" ++ [NL]
  ++ py "#comment 13" ++ [NL].





(** A loaded file with two records; the first has a field with a list. *)
Definition ex_records : list pyval :=
  [PDict (Some [(KStr (py "vlan"), [CNone; CNone; CTok 1; CNone])])
     [(KStr (py "vlan"), PStr (py "10"));
      (KStr (py "ports"), PList (Some []) [PStr (py "Gi0/1"); PStr (py "Gi0/2")])];
   PDict (Some [(KStr (py "vlan"), [CNone; CNone; CTok 2; CNone])])
     [(KStr (py "vlan"), PNum 20);
      (KStr (py "ports"), PList (Some []) [])]].

Definition ex_parsed_registry : registry :=
  [(KStr (py "parsed_sample"), [CNone; CNone; CTok 0; CNone])].

Definition ex_parsed : pyval :=
  PDict (Some ex_parsed_registry)
    [(KStr (py "parsed_sample"), PList (Some []) ex_records)].

Definition ex_parsed_store : store :=
  list_to_map
    [(0%nat, py "#first" ++ [NL]); (1%nat, py "#second" ++ [NL]);
     (2%nat, py "#third" ++ [NL])].

Definition ex_world : world :=
  World ex_parsed_store (fun _ => None) (fun _ => None) ∅.






From Stdlib Require DecimalZ DecimalPos.

(** ** The rest of the script *)

(** The exceptions of the rest of the script: those above and
    [IndexError]. *)
Inductive script_exn := IndexError | Other (e : exn).

(** How a call that returns a value ends. *)
Inductive ending (A : Type) := Done (a : A) | Failed (e : script_exn).
Arguments Done {A} a.
Arguments Failed {A} e.

Section TextFSM.
(** [str.lower], left to the environment. *)
Variable lower : pystr -> pystr.

(** The inner loop of [_textfsm_reslut_to_dict]:
    [temp_dict[header[index].lower()] = element] for the elements of a row
    from position [index] on. *)
Fixpoint row_to_dict (header : list pystr) (index : nat) (row : list pyval)
    (temp_dict : list (pykey * pyval)) : ending (list (pykey * pyval)) :=
  match row with
  | [] => Done temp_dict
  | element :: row' =>
      match header !! index with
      | None => Failed IndexError
      | Some h =>
          row_to_dict header (S index) row'
            (dict_set (KStr (lower h)) element temp_dict)
      end
  end.

(** [_textfsm_reslut_to_dict]: one plain [dict] for each row. *)
Fixpoint _textfsm_reslut_to_dict (header : list pystr) (reslut : list (list pyval))
  : ending (list pyval) :=
  match reslut with
  | [] => Done []
  | row :: rows =>
      match row_to_dict header 0 row [] with
      | Failed e => Failed e
      | Done temp_dict =>
          match _textfsm_reslut_to_dict header rows with
          | Failed e => Failed e
          | Done objs => Done (PDict None temp_dict :: objs)
          end
      end
  end.
End TextFSM.

(** A record with a field whose value is a list. *)
Definition has_list_field (e : pyval) : bool :=
  match e with
  | PDict _ fields =>
      existsb (fun kv : pykey * pyval =>
                 match kv.2 with PList _ _ => true | _ => false end) fields
  | _ => false
  end.

(** [str.lower] on the letters A to Z, every other character kept: what
    [str.lower] does to text in ASCII. *)
Definition ascii_lower (s : pystr) : pystr :=
  map (fun c => if (65 <=? c) && (c <=? 90) then c + 32 else c) s.

(** The fields that a row gives when no two names of the header are the
    same once in lower case. *)
Definition zip_fields (lower : pystr -> pystr) (header : list pystr)
    (row : list pyval) : list (pykey * pyval) :=
  zip_with (fun h e => (KStr (lower h), e)) header row.

(** ** Directories and files *)

(** A path cut after its last separator: [p[:i]] and [p[i:]] for
    [i = p.rfind("/") + 1]. *)
Fixpoint rsplit_sep (p : pystr) : pystr * pystr :=
  match p with
  | [] => ([], [])
  | c :: p' =>
      let '(head, tail) := rsplit_sep p' in
      match head with
      | _ :: _ => (c :: head, tail)
      | [] => if c =? SLASH then ([c], p') else ([], p)
      end
  end.

(** [head.rstrip("/")] *)
Fixpoint lstrip_sep (s : pystr) : pystr :=
  match s with
  | [] => []
  | c :: s' => if c =? SLASH then lstrip_sep s' else s
  end.

Definition rstrip_sep (s : pystr) : pystr := rev (lstrip_sep (rev s)).

(** [posixpath.basename] *)
Definition os_path_basename (p : pystr) : pystr := (rsplit_sep p).2.

(** [posixpath.dirname] *)
Definition os_path_dirname (p : pystr) : pystr :=
  let head := (rsplit_sep p).1 in
  if negb (bool_decide (head = [])) && negb (forallb (fun c => c =? SLASH) head)
  then rstrip_sep head
  else head.

Section FileSystem.
(** The file system, left to the environment: whether a path exists
    ([os.path.exists]), the making of a directory ([os.mkdir]) and the
    writing of an empty file ([open(path, "w").write("")]). *)
Context {FS : Type}.
Variable path_exists : FS -> pystr -> bool.
Variable mkdir : pystr -> FS -> FS * outcome.
Variable write_empty : pystr -> FS -> FS * outcome.

(** [generate_file], with the [vendor_os] of the module as for
    [get_test_files]. *)
Definition generate_file (module_vendor_os : option pystr)
    (vendor_os command : pystr) (index : Z) (fs : FS) : FS * outcome :=
  match get_test_files module_vendor_os vendor_os command index with
  | Err e => (fs, Raised e)
  | Ok (raw_file, template_file) =>
      let raw_done :=
        if path_exists fs raw_file then (fs, Returned)
        else
          let dir_done :=
            if path_exists fs (os_path_dirname raw_file) then (fs, Returned)
            else mkdir (os_path_dirname raw_file) fs in
          match dir_done with
          | (fs1, Returned) => write_empty raw_file fs1
          | r => r
          end in
      match raw_done with
      | (fs2, Returned) =>
          if path_exists fs2 template_file then (fs2, Returned)
          else write_empty template_file fs2
      | r => r
      end
  end.
End FileSystem.

(** A file system for examples: the set of the paths that exist, a
    directory made only inside a directory that exists. *)
Definition ex_exists (fs : gset pystr) (p : pystr) : bool := bool_decide (p ∈ fs).

Definition ex_mkdir (p : pystr) (fs : gset pystr) : gset pystr * outcome :=
  if bool_decide (p ∈ fs) then (fs, Raised OSError)
  else if bool_decide (os_path_dirname p ∈ fs) then ({[p]} ∪ fs, Returned)
  else (fs, Raised OSError).

Definition ex_write_empty (p : pystr) (fs : gset pystr) : gset pystr * outcome :=
  if bool_decide (os_path_dirname p ∈ fs) then ({[p]} ∪ fs, Returned)
  else (fs, Raised OSError).

Definition ex_fs : gset pystr :=
  {[py "tests"; py "tests/cisco_ios"; py "ntc_templates"; py "ntc_templates/templates"]}.

(** ** The substitution of blanks in a template *)

Definition CR : N := 13.          (* carriage return *)

(** The characters at which [str.splitlines] cuts. *)
Definition is_linebreak (c : N) : bool :=
  ((10 <=? c) && (c <=? 13)) || ((28 <=? c) && (c <=? 30))
  || (c =? 133) || (c =? 8232) || (c =? 8233).

(** The text cut at every line break, a carriage return and the newline
    after it being one break; [after_cr] says that the character before
    was a carriage return. *)
Fixpoint segments (after_cr : bool) (s : pystr) : list pystr :=
  match s with
  | [] => [[]]
  | c :: s' =>
      if after_cr && (c =? NL) then segments false s'
      else if is_linebreak c then [] :: segments (c =? CR) s'
      else match segments false s' with
           | l :: ls => (c :: l) :: ls
           | [] => [[c]]
           end
  end.

(** [s.splitlines()]: the segments, without the last one when it is
    empty. *)
Definition splitlines (s : pystr) : list pystr :=
  let segs := segments false s in
  match last segs with
  | Some [] => take (length segs - 1) segs
  | _ => segs
  end.

(** [s.startswith(prefix)] *)
Fixpoint startswith (prefix s : pystr) : bool :=
  match prefix, s with
  | [], _ => true
  | p :: prefix', c :: s' => (c =? p) && startswith prefix' s'
  | _ :: _, [] => false
  end.

(** [s.split()]: the runs of characters that are not whitespace. *)
Fixpoint words (s : pystr) : list pystr :=
  match s with
  | [] => []
  | c :: s' =>
      if is_space c then words s'
      else match s' with
           | [] => [[c]]
           | d :: _ =>
               if is_space d then [c] :: words s'
               else match words s' with
                    | w :: ws => (c :: w) :: ws
                    | [] => [[c]]
                    end
           end
  end.

(** [sep.join(l)] *)
Fixpoint join (sep : pystr) (l : list pystr) : pystr :=
  match l with
  | [] => []
  | [w] => w
  | w :: l' => w ++ sep ++ join sep l'
  end.

(** [s.replace(old, new)] for an [old] that is not empty: from the left,
    every occurrence that does not overlap an earlier one; [skip] counts
    the characters of an occurrence still to pass over. *)
Fixpoint replace_from (old new : pystr) (skip : nat) (s : pystr) : pystr :=
  match skip, s with
  | _, [] => []
  | S k, _ :: s' => replace_from old new k s'
  | O, c :: s' =>
      if startswith old s then new ++ replace_from old new (length old - 1) s'
      else c :: replace_from old new 0 s'
  end.

(** [s.replace(old, new)] *)
Definition str_replace (old new s : pystr) : pystr :=
  match old with
  | [] => new ++ concat (map (fun c => c :: new) s)
  | _ => replace_from old new 0 s
  end.

(** [s[:-n]] *)
Definition drop_last (n : nat) (s : pystr) : pystr :=
  match n with
  | O => []
  | _ => take (length s - n) s
  end.

Module ReEnd.

(** Whether [$] matches: at the end of the text or before a newline that
    ends it. *)
Definition at_end (s : pystr) : bool :=
  match s with
  | [] => true
  | [c] => c =? NL
  | _ => false
  end.

(** Greedy backtracking match of a sequence of atoms followed by [$]: the
    text that the atoms take. *)
Fixpoint match_to_end (ats : list Re.atom) (s : pystr) : option pystr :=
  match ats with
  | [] => if at_end s then Some [] else None
  | Re.One k :: ats' =>
      match s with
      | c :: s' =>
          if Re.cls_matches k c then
            match match_to_end ats' s' with
            | Some m => Some (c :: m)
            | None => None
            end
          else None
      | [] => None
      end
  | Re.Star k :: ats' =>
      (fix star (s : pystr) : option pystr :=
         match s with
         | c :: s' =>
             if Re.cls_matches k c then
               match star s' with
               | Some m => Some (c :: m)
               | None => match_to_end ats' s
               end
             else match_to_end ats' s
         | [] => match_to_end ats' s
         end) s
  end.

(** [re.search] for a pattern that is one group followed by [$]: the text
    of the group in the leftmost match. *)
Fixpoint search (ats : list Re.atom) (s : pystr) : option pystr :=
  match match_to_end ats s with
  | Some m => Some m
  | None =>
      match s with
      | [] => None
      | _ :: s' => search ats s'
      end
  end.

End ReEnd.

(** The pattern of [reg_blank_sub]: a space, [->], a space, any run of
    characters that are not newlines; then the end. *)
Definition RE_ACTION : list Re.atom :=
  [Re.One (Re.Lit SP); Re.One (Re.Lit 45); Re.One (Re.Lit 62); Re.One (Re.Lit SP);
   Re.Star Re.Any].

(** The body of the loop of [reg_blank_sub]: what is appended to
    [final_text] for a line. *)
Definition blank_sub_line (line : pystr) : pystr :=
  if negb (startswith (py "  ^") line) then line
  else
    let line := drop 2 line in
    let match_end := ReEnd.search RE_ACTION line in
    let end_ := match match_end with Some m => m | None => [] end in
    let line := match match_end with
                | Some m => drop_last (length m) line
                | None => line
                end in
    let tmp := join [SP] (words line) in
    let tmp := str_replace [SP] (py "\s+") tmp in
    py "  " ++ tmp ++ end_.

(** The text that [reg_blank_sub] writes, for the text it has read. *)
Definition blank_sub_text (text : pystr) : pystr :=
  join [NL] (map blank_sub_line (splitlines text)).

Section TextFiles.
(** Reading a file as text and writing text to a file, left to the
    environment. *)
Context {FS : Type}.
Variable read_text : pystr -> FS -> result pystr.
Variable write_text : pystr -> pystr -> FS -> FS * outcome.

Definition reg_blank_sub (file : pystr) (fs : FS) : FS * outcome :=
  match read_text file fs with
  | Err e => (fs, Raised e)
  | Ok text => write_text file (blank_sub_text text) fs
  end.
End TextFiles.

(** The first place where the action of a rule begins: the rest of the
    line from the first [ -> ] on. *)
Fixpoint action_of (s : pystr) : option pystr :=
  if startswith (py " -> ") s then Some s
  else match s with
       | [] => None
       | _ :: s' => action_of s'
       end.

Definition CARET : N := 94.       (* circumflex *)

(** No whitespace at all. *)
Definition no_space (s : pystr) : bool := forallb (fun c => negb (is_space c)) s.

(** No character at which [str.splitlines] cuts. *)
Definition no_break (s : pystr) : bool := forallb (fun c => negb (is_linebreak c)) s.

(** A table of text files, for examples: a file that is not there cannot
    be read, and writing always works. *)
Definition ex_read_text (file : pystr) (fs : gmap pystr pystr) : result pystr :=
  match fs !! file with
  | Some text => Ok text
  | None => Err OSError
  end.

Definition ex_write_text (file text : pystr) (fs : gmap pystr pystr)
    : gmap pystr pystr * outcome :=
  (<[file := text]> fs, Returned).

Definition ex_template : pystr := py "ntc_templates/templates/cisco_ios_show_version.textfsm".

Definition ex_template_text : pystr :=
  py "Value VERSION (\S+)" ++ [NL] ++ [NL] ++ py "Start" ++ [NL]
  ++ py "  ^Cisco IOS   Software.*Version  ${VERSION}, -> Record" ++ [NL].

Definition ex_templates : gmap pystr pystr := {[ ex_template := ex_template_text ]}.

(** ** The entry for the index file *)

(** One word of the entry: the short word alone when nothing of the word
    of the command is left once every occurrence of the short word is
    taken out of it, otherwise the short word and what is left between
    escaped brackets. *)
Definition entry_word (word short_cmd_e : pystr) : pystr :=
  let last := str_replace short_cmd_e [] word in
  if bool_decide (last = []) then short_cmd_e
  else short_cmd_e ++ py "\[\[" ++ last ++ py "]]".



(** Whether [old] occurs in [s]. *)
Fixpoint occurs (old s : pystr) : bool :=
  startswith old s
  || match s with
     | [] => false
     | _ :: s' => occurs old s'
     end.

(** The name of the file for the parsed sample, from the name of the raw
    file: [raw_file.replace("raw", "yml")]. *)
Definition yml_file (raw_file : pystr) : pystr :=
  str_replace (py "raw") (py "yml") raw_file.
(** ** Facts about the matcher *)

Section Matcher.
Import Re.

Lemma span_app p s : (span p s).1 ++ (span p s).2 = s.
Proof.
  induction s as [|c s IH]; simpl; [done|].
  destruct (p c); [|done]. destruct (span p s) as [a b]; simpl in *.
  by rewrite IH.
Qed.

Lemma span_all p s : forallb p (span p s).1 = true.
Proof.
  induction s as [|c s IH]; simpl; [done|].
  destruct (p c) eqn:E; [|done]. destruct (span p s) as [a b]; simpl in *.
  by rewrite E, IH.
Qed.

Lemma span_stop p s c t : (span p s).2 = c :: t -> p c = false.
Proof.
  induction s as [|d s IH]; simpl; [done|].
  destruct (p d) eqn:E.
  - destruct (span p s) as [a b]; simpl in *. exact IH.
  - simpl. intros [= -> _]. exact E.
Qed.

(** A star whose class never starts a match of what follows takes the
    longest run of its class: there is nothing to backtrack to. *)
Lemma match_star_blocked k ats s :
  (forall c t, cls_matches k c = true -> match_atoms ats (c :: t) = None) ->
  match_atoms (Star k :: ats) s =
    match match_atoms ats (span (cls_matches k) s).2 with
    | Some (caps, rest) => Some ((span (cls_matches k) s).1 :: caps, rest)
    | None => None
    end.
Proof.
  intros Hblock. induction s as [|c s IH].
  - simpl. done.
  - change (match_atoms (Star k :: ats) (c :: s)) with
      (let stop := match match_atoms ats (c :: s) with
                   | Some (caps, rest) => Some ([] :: caps, rest)
                   | None => None
                   end in
       if cls_matches k c then
         match match_atoms (Star k :: ats) s with
         | Some (w :: caps, rest) => Some ((c :: w) :: caps, rest)
         | _ => stop
         end
       else stop).
    cbv zeta. cbn [span]. destruct (cls_matches k c) eqn:E.
    + rewrite IH, (Hblock c s E).
      destruct (span (cls_matches k) s) as [a b]; cbn [fst snd].
      by destruct (match_atoms ats b) as [[caps rest]|].
    + done.
Qed.

(** A star at the end of the pattern takes the longest run of its class. *)
Lemma match_star_last k s :
  match_atoms [Star k] s =
    Some ([(span (cls_matches k) s).1], (span (cls_matches k) s).2).
Proof.
  induction s as [|c s IH]; [done|].
  change (match_atoms [Star k] (c :: s)) with
    (if cls_matches k c then
       match match_atoms [Star k] s with
       | Some (w :: caps, rest) => Some ((c :: w) :: caps, rest)
       | _ => Some ([[]], c :: s)
       end
     else Some ([[]], c :: s)).
  cbn [span]. destruct (cls_matches k c); [|done].
  rewrite IH. by destruct (span (cls_matches k) s).
Qed.

Lemma match_one k ats c s :
  match_atoms (One k :: ats) (c :: s) =
    if cls_matches k c then
      match match_atoms ats s with
      | Some (caps, rest) => Some ([c] :: caps, rest)
      | None => None
      end
    else None.
Proof. reflexivity. Qed.

Lemma match_here_remark s :
  match_here RE_MULTILINE_REMARK s = match_remark s.
Proof.
  unfold match_here, match_remark, RE_MULTILINE_REMARK. cbn [fst snd app length].
  rewrite match_star_blocked.
  2:{ intros c t Hc. rewrite match_one. cbn in Hc |- *.
      apply negb_true_iff in Hc. by rewrite Hc. }
  change (span (cls_matches Any)) with (span not_nl).
  pose proof (span_stop not_nl s) as Hstop.
  destruct (span not_nl s) as [l s1]; cbn [fst snd] in *.
  destruct s1 as [|c s2]; [done|].
  specialize (Hstop c s2 eq_refl). unfold not_nl in Hstop.
  apply negb_false_iff in Hstop.
  rewrite match_one. cbn [cls_matches]. rewrite Hstop.
  rewrite match_star_blocked.
  2:{ intros d t Hd. rewrite match_one. cbn in Hd |- *.
      destruct (d =? HASH) eqn:E; [|done].
      apply N.eqb_eq in E. subst d. discriminate Hd. }
  change (span (cls_matches Space)) with (span is_space).
  destruct (span is_space s2) as [w s3]; cbn [fst snd].
  destruct s3 as [|h s4]; [done|].
  rewrite match_one. cbn [cls_matches].
  destruct (h =? HASH) eqn:E; [|done].
  apply N.eqb_eq in E. subst h.
  rewrite match_star_last.
  change (span (cls_matches Any)) with (span not_nl).
  destruct (span not_nl s4) as [g rest]; cbn [fst snd].
  apply N.eqb_eq in Hstop. subst c.
  cbn. by rewrite !app_nil_r.
Qed.

Lemma span_app_stop p a b :
  forallb p a = true ->
  match b with [] => True | c :: _ => p c = false end ->
  span p (a ++ b) = (a, b).
Proof.
  intros Ha Hb. induction a as [|c a IH]; simpl in *.
  - destruct b as [|c b]; [done|]. simpl. by rewrite Hb.
  - apply andb_true_iff in Ha as [-> Ha]. by rewrite IH.
Qed.

(** What a match of the pattern looks like. *)
Lemma match_remark_Some s g1 g2 rest :
  match_remark s = Some (g1, g2, rest) ->
  exists l w,
    g1 = l ++ [NL] ++ w ++ [HASH] /\ no_nl l = true /\ all_space w = true
    /\ no_nl g2 = true /\ s = g1 ++ g2 ++ rest
    /\ match rest with [] => True | c :: _ => c = NL end.
Proof.
  unfold match_remark.
  pose proof (span_app not_nl s) as A1. pose proof (span_all not_nl s) as B1.
  pose proof (span_stop not_nl s) as C1.
  destruct (span not_nl s) as [l s1]; cbn [fst snd] in *.
  destruct s1 as [|c s2]; [done|].
  specialize (C1 c s2 eq_refl). apply negb_false_iff, N.eqb_eq in C1. subst c.
  pose proof (span_app is_space s2) as A2. pose proof (span_all is_space s2) as B2.
  destruct (span is_space s2) as [w s3]; cbn [fst snd] in *.
  destruct s3 as [|h s4]; [done|].
  destruct (h =? HASH) eqn:E; [|done]. apply N.eqb_eq in E. subst h.
  pose proof (span_app not_nl s4) as A3. pose proof (span_all not_nl s4) as B3.
  pose proof (span_stop not_nl s4) as C3.
  destruct (span not_nl s4) as [g r]; cbn [fst snd] in *.
  intros [= <- <- <-]. exists l, w. repeat split. all: try done.
  - rewrite <- A1, <- A2, <- A3.
    rewrite <- ?app_assoc; simpl; rewrite <- ?app_assoc; done.
  - destruct r as [|c r]; [done|].
    specialize (C3 c r eq_refl). by apply negb_false_iff, N.eqb_eq in C3.
Qed.

Lemma match_remark_intro l w g rest :
  no_nl l = true -> all_space w = true -> no_nl g = true ->
  match rest with [] => True | c :: _ => c = NL end ->
  match_remark (l ++ [NL] ++ w ++ [HASH] ++ g ++ rest)
  = Some (l ++ [NL] ++ w ++ [HASH], g, rest).
Proof.
  intros Hl Hw Hg Hr. unfold match_remark.
  rewrite (span_app_stop not_nl l _ Hl); [|done]. cbn [app].
  rewrite (span_app_stop is_space w _ Hw); [|done].
  cbn [app]. rewrite N.eqb_refl.
  rewrite (span_app_stop not_nl g _ Hg); [done|].
  destruct rest as [|c r]; [done|]. by subst c.
Qed.

Lemma match_remark_shorter s g1 g2 rest :
  match_remark s = Some (g1, g2, rest) -> (length rest < length s)%nat.
Proof.
  intros H. apply match_remark_Some in H as (l & w & -> & _ & _ & _ & -> & _).
  rewrite !length_app. simpl. lia.
Qed.

(** The scan does not depend on its bound once that exceeds the length of
    the text. *)
Lemma findall_fuel_enough n m s :
  (length s < n)%nat -> (length s < m)%nat ->
  findall_fuel n RE_MULTILINE_REMARK s = findall_fuel m RE_MULTILINE_REMARK s.
Proof.
  revert m s. induction n as [|n IH]; intros m s Hn Hm; [lia|].
  destruct m as [|m]; [lia|]. cbn [findall_fuel].
  rewrite match_here_remark.
  destruct (match_remark s) as [[[g1 g2] rest]|] eqn:E.
  - apply match_remark_shorter in E. f_equal. apply IH; lia.
  - destruct s as [|c s]; [done|]. simpl in *. apply IH; lia.
Qed.

Lemma findall_unfold s :
  findall RE_MULTILINE_REMARK s =
    match match_remark s with
    | Some (g1, g2, rest) => (g1, g2) :: findall RE_MULTILINE_REMARK rest
    | None =>
        match s with
        | [] => []
        | _ :: s' => findall RE_MULTILINE_REMARK s'
        end
    end.
Proof.
  unfold findall at 1. cbn [findall_fuel]. rewrite match_here_remark.
  destruct (match_remark s) as [[[g1 g2] rest]|] eqn:E.
  - f_equal. apply match_remark_shorter in E.
    apply findall_fuel_enough; lia.
  - destruct s as [|c s]; [done|]. apply findall_fuel_enough; simpl; lia.
Qed.

(** The remarks that the comment in the source gives as an example. *)
Example findall_source_comment :
  findall RE_MULTILINE_REMARK
    (py "comment " ++ [NL] ++ py "#      comment2 " ++ [NL] ++ py "  #comment3 # 9")
  = [(py "comment " ++ [NL] ++ py "#", py "      comment2 ");
     ([NL] ++ py "  #", py "comment3 # 9")].
Proof. vm_compute. reflexivity. Qed.

End Matcher.

(** ** Facts about stripping *)

Section Strip.

Lemma lstrip_lclean s : lclean (lstrip s).
Proof.
  induction s as [|c s IH]; simpl; [done|].
  destruct (is_space c) eqn:E; [done|]. exact E.
Qed.

Lemma lclean_lstrip s : lclean s -> lstrip s = s.
Proof. destruct s as [|c s]; simpl; [done|]. by intros ->. Qed.

Lemma lstrip_idem s : lstrip (lstrip s) = lstrip s.
Proof. apply lclean_lstrip, lstrip_lclean. Qed.

Lemma lstrip_snoc s c :
  lstrip (s ++ [c]) =
    match lstrip s with
    | [] => if is_space c then [] else [c]
    | r => r ++ [c]
    end.
Proof.
  induction s as [|d s IH]; simpl; [done|].
  destruct (is_space d); [exact IH|done].
Qed.

(** [rstrip] read from the front. *)
Lemma rstrip_cons c s :
  rstrip (c :: s) =
    match rstrip s with
    | [] => if is_space c then [] else [c]
    | r => c :: r
    end.
Proof.
  unfold rstrip. simpl. rewrite lstrip_snoc.
  destruct (lstrip (rev s)) as [|d r] eqn:E; simpl.
  - by destruct (is_space c).
  - rewrite rev_app_distr. simpl.
    destruct (rev r ++ [d]) eqn:E'; [by destruct (rev r)|done].
Qed.

Lemma rstrip_idem s : rstrip (rstrip s) = rstrip s.
Proof. unfold rstrip. by rewrite rev_involutive, lstrip_idem. Qed.

Lemma rstrip_lclean s : lclean s -> lclean (rstrip s).
Proof.
  destruct s as [|c s]; [done|]. simpl. intros Hc. rewrite rstrip_cons.
  destruct (rstrip s); [by rewrite Hc|done].
Qed.

Lemma strip_trimmed s : trimmed (strip s).
Proof.
  unfold trimmed, strip.
  rewrite (lclean_lstrip (rstrip (lstrip s))); [apply rstrip_idem|].
  apply rstrip_lclean, lstrip_lclean.
Qed.

Lemma strip_space c s : is_space c = true -> strip (c :: s) = strip s.
Proof. intros H. unfold strip. simpl. by rewrite H. Qed.

Lemma forallb_rev {A} (p : A -> bool) l : forallb p (rev l) = forallb p l.
Proof.
  induction l as [|x l IH]; simpl; [done|].
  rewrite forallb_app, IH. simpl. rewrite andb_true_r. apply andb_comm.
Qed.



(** Stripping text that is all whitespace leaves nothing. *)
Lemma lstrip_all_space s : all_space s = true -> lstrip s = [].
Proof.
  induction s as [|c s IH]; simpl; [done|].
  intros [-> Hs]%andb_true_iff. by apply IH.
Qed.

Lemma strip_all_space s : all_space s = true -> strip s = [].
Proof. intros H. unfold strip. by rewrite lstrip_all_space. Qed.

(** The stripped text with what was cut at either end. *)
Lemma lstrip_split s :
  exists w, s = w ++ lstrip s /\ all_space w = true.
Proof.
  induction s as [|c s (w & Hw & Hs)]; simpl.
  - by exists [].
  - destruct (is_space c) eqn:E.
    + exists (c :: w). simpl. rewrite E, Hs. split; [by f_equal|done].
    + by exists [].
Qed.

Lemma rstrip_split s :
  exists w, s = rstrip s ++ w /\ all_space w = true.
Proof.
  destruct (lstrip_split (rev s)) as (w & Hw & Hs).
  exists (rev w). unfold rstrip, all_space. rewrite forallb_rev. split; [|done].
  rewrite <- rev_app_distr, <- Hw. by rewrite rev_involutive.
Qed.

End Strip.

(** ** Facts about the normaliser *)

Section Normaliser.
Import Re.

Lemma normaliser_no_match s :
  findall RE_MULTILINE_REMARK s = [] ->
  ensure_spacing_for_multiline_comment s = SP :: strip s.
Proof.
  intros H. unfold ensure_spacing_for_multiline_comment. rewrite H.
  simpl. by rewrite app_nil_r.
Qed.

Lemma normaliser_match s e l :
  findall RE_MULTILINE_REMARK s = e :: l ->
  ensure_spacing_for_multiline_comment s =
    concat (map (fun entry => entry.1 ++ [SP] ++ strip entry.2) (e :: l)).
Proof.
  intros H. unfold ensure_spacing_for_multiline_comment. by rewrite H.
Qed.

(** Induction on the length of the text, as the scan proceeds. *)
Lemma scan_ind (P : pystr -> Prop) :
  (forall s, (forall s', (length s' < length s)%nat -> P s') -> P s) ->
  forall s, P s.
Proof.
  intros H s. remember (length s) as n eqn:E.
  revert s E. induction n as [n IH] using lt_wf_ind.
  intros s ->. apply H. intros s' Hs'. by apply (IH (length s')).
Qed.

Lemma count_no_nl l x :
  no_nl l = true -> count_markers false (l ++ x) = count_markers false x.
Proof.
  induction l as [|c l IH]; simpl; [done|].
  intros [Hc Hl]%andb_true_iff. unfold not_nl in Hc.
  apply negb_true_iff in Hc. rewrite Hc.
  rewrite andb_false_r. destruct (is_space c); by apply IH.
Qed.

Lemma count_indent w x :
  all_space w = true -> count_markers true (w ++ x) = count_markers true x.
Proof.
  induction w as [|c w IH]; simpl; [done|].
  intros [Hc Hw]%andb_true_iff. rewrite Hc. destruct (c =? NL); by apply IH.
Qed.

(** Whitespace followed by something that is not a marker counts the same
    whether or not a newline came before. *)
Lemma count_no_marker b b' w x :
  all_space w = true ->
  match x with [] => True | h :: _ => is_space h = false /\ h <> HASH end ->
  count_markers b (w ++ x) = count_markers b' (w ++ x).
Proof.
  intros Hw Hx. induction w as [|c w IH]; simpl.
  - destruct x as [|h x]; [done|]. destruct Hx as [Hh Hne]. simpl.
    destruct (h =? NL) eqn:E1.
    { apply N.eqb_eq in E1. subst h. discriminate Hh. }
    rewrite Hh. apply N.eqb_neq in Hne. by rewrite Hne.
  - simpl in Hw. apply andb_true_iff in Hw as [Hc Hw]. rewrite Hc.
    destruct (c =? NL); [done|]. by apply IH.
Qed.

Lemma count_flag_mono s : (count_markers false s <= count_markers true s)%nat.
Proof.
  induction s as [|c s IH]; simpl; [done|].
  destruct (c =? NL); [done|]. destruct (is_space c); [done|].
  rewrite andb_false_r, andb_true_r. destruct (c =? HASH); lia.
Qed.

Lemma count_suffix b x y : (count_markers false y <= count_markers b (x ++ y))%nat.
Proof.
  revert b. induction x as [|c x IH]; intros b; simpl.
  - destruct b; [apply count_flag_mono|done].
  - destruct (c =? NL); [apply IH|]. destruct (is_space c); [apply IH|].
    destruct ((c =? HASH) && b); [|apply IH].
    specialize (IH false). lia.
Qed.

Lemma count_prefix b x y : (count_markers b x <= count_markers b (x ++ y))%nat.
Proof.
  revert b. induction x as [|c x IH]; intros b; simpl; [lia|].
  destruct (c =? NL); [apply IH|]. destruct (is_space c); [apply IH|].
  destruct ((c =? HASH) && b); [|apply IH].
  specialize (IH false). lia.
Qed.

Lemma count_strip s :
  (continuation_markers (strip s) <= continuation_markers s)%nat.
Proof.
  unfold continuation_markers, strip.
  destruct (lstrip_split s) as (w & Hw & _).
  destruct (rstrip_split (lstrip s)) as (w' & Hw' & _).
  rewrite Hw at 2. rewrite Hw' at 2.
  etrans; [|apply count_suffix]. apply count_prefix.
Qed.

(** The matches of the scan are the continuation markers of the text. *)
Lemma findall_length s :
  length (findall RE_MULTILINE_REMARK s) = continuation_markers s.
Proof.
  unfold continuation_markers.
  induction s as [s IH] using scan_ind. rewrite findall_unfold.
  destruct (match_remark s) as [[[g1 g2] rest]|] eqn:E.
  - pose proof (match_remark_shorter _ _ _ _ E) as Hlt.
    apply match_remark_Some in E as (l & w & -> & Hl & Hw & Hg & -> & _).
    simpl. rewrite (IH rest Hlt).
    rewrite <- !app_assoc. rewrite (count_no_nl l _ Hl). simpl.
    rewrite <- app_assoc. rewrite (count_indent w _ Hw). simpl.
    by rewrite (count_no_nl g2 _ Hg).
  - destruct s as [|c s]; [done|]. rewrite (IH s) by (simpl; lia).
    simpl. destruct (c =? NL) eqn:Ec.
    + apply N.eqb_eq in Ec. subst c.
      unfold match_remark in E. simpl in E.
      pose proof (span_app is_space s) as A. pose proof (span_all is_space s) as B.
      pose proof (span_stop is_space s) as C.
      destruct (span is_space s) as [w s3]; cbn [fst snd] in *.
      rewrite <- A. apply count_no_marker; [done|].
      destruct s3 as [|h s4]; [done|]. split; [by eapply C|].
      intros ->. rewrite N.eqb_refl in E. by destruct (span not_nl s4).
    + rewrite andb_false_r. by destruct (is_space c).
Qed.

Lemma findall_nil_iff s :
  findall RE_MULTILINE_REMARK s = [] <-> continuation_markers s = O.
Proof.
  rewrite <- findall_length. split; [by intros ->|].
  by destruct (findall RE_MULTILINE_REMARK s).
Qed.

End Normaliser.

(** ** Properties of the comment normaliser *)

(** Lists brought to the form [x ++ c :: y ++ ...]. *)
Ltac app_norm :=
  repeat (rewrite <- app_assoc); simpl; repeat (rewrite <- app_assoc); simpl.

Section NormaliserProperties.
Import Re.

Lemma findall_continuation first t rest :
  no_nl first = true -> no_nl t = true ->
  match rest with [] => True | c :: _ => c = NL end ->
  findall RE_MULTILINE_REMARK (first ++ continuation t ++ rest)
  = (first ++ [NL; HASH], SP :: t) :: findall RE_MULTILINE_REMARK rest.
Proof.
  intros Hfirst Ht Hrest. rewrite findall_unfold.
  change (first ++ continuation t ++ rest)
    with (first ++ [NL] ++ [] ++ [HASH] ++ (SP :: t) ++ rest).
  by rewrite match_remark_intro.
Qed.


Lemma render_tail ts :
  Forall trimmed ts ->
  concat (map (fun entry : pystr * pystr => entry.1 ++ [SP] ++ strip entry.2)
            (map (fun t' => ([NL; HASH], SP :: t')) ts))
  = concat (map continuation ts).
Proof.
  induction 1 as [|t ts Ht Hts IH]; [done|].
  cbn [map concat fst snd]. rewrite (strip_space SP t eq_refl), Ht, IH.
  unfold continuation. by rewrite <- !app_assoc.
Qed.

Lemma render_units first t ts :
  Forall trimmed (t :: ts) ->
  concat (map (fun entry : pystr * pystr => entry.1 ++ [SP] ++ strip entry.2)
            ((first ++ [NL; HASH], SP :: t)
               :: map (fun t' => ([NL; HASH], SP :: t')) ts))
  = normalized_remark first (t :: ts).
Proof.
  intros [Ht Hts]%Forall_cons. unfold normalized_remark.
  cbn [map concat fst snd].
  rewrite (strip_space SP t eq_refl), Ht, (render_tail ts Hts).
  unfold continuation. by rewrite <- !app_assoc.
Qed.




End NormaliserProperties.

(** C3.  The example of the docstring and of the test: the remark with
    eight spaces before its second comment and none before its third comes
    back with one space after each continuation marker and without the
    final newline. *)
Theorem docstring_example :
  ensure_spacing_for_multiline_comment ex_remark
  = py "comment 11" ++ [NL] ++ py "# comment 12" ++ [NL] ++ py "# comment 13".
Proof. vm_compute. reflexivity. Qed.


Section Lines.




End Lines.






(** C8.  The normaliser is defined on every string.  Its scan ends within
    the bound it is given, whatever larger bound is taken; on a text that
    is empty or all whitespace it returns a single space; it never returns
    the empty string.  On an absent comment [ensure_space_after_octothorpe]
    returns at once and leaves every token as it was. *)
Theorem normaliser_total (s : pystr) (n : nat) (σ : store) :
  ((length s < n)%nat ->
   Re.findall_fuel n RE_MULTILINE_REMARK s = Re.findall RE_MULTILINE_REMARK s)
  /\ (all_space s = true -> ensure_spacing_for_multiline_comment s = [SP])
  /\ ensure_spacing_for_multiline_comment s <> []
  /\ ensure_space_after_octothorpe CNone σ = (σ, Returned).
Proof.
  split; [|split; [|split]].
  - intros Hn. apply findall_fuel_enough; [done|lia].
  - intros Hs. rewrite normaliser_no_match; [by rewrite strip_all_space|].
    apply findall_nil_iff. unfold continuation_markers.
    generalize false. induction s as [|c s IH]; intros b; simpl; [done|].
    simpl in Hs. apply andb_true_iff in Hs as [Hc Hs]. rewrite Hc.
    destruct (c =? NL); by apply IH.
  - destruct (Re.findall RE_MULTILINE_REMARK s) as [|[g1 g2] l] eqn:E.
    + by rewrite normaliser_no_match.
    + rewrite (normaliser_match s _ _ E). simpl. by destruct g1.
  - reflexivity.
Qed.

(** C8 at a text of two spaces and at the empty text. *)
Lemma normaliser_total_witness :
  (Re.findall_fuel 3 RE_MULTILINE_REMARK (py "  ")
   = Re.findall RE_MULTILINE_REMARK (py "  "))
  /\ ensure_spacing_for_multiline_comment (py "  ") = [SP]
  /\ ensure_spacing_for_multiline_comment [] = [SP].
Proof.
  destruct (normaliser_total (py "  ") 3 ∅) as (Hfuel & Hspace & _ & _).
  destruct (normaliser_total [] 1 ∅) as (_ & Hempty & _ & _).
  split; [apply Hfuel; simpl; lia|].
  split; [apply Hspace; reflexivity|apply Hempty; reflexivity].
Defined.

(** ** Facts about the walk over a document *)

Section Walker.

Lemma normalize_tokens_app a b (σ : store) :
  normalize_tokens (a ++ b) σ = normalize_tokens b (normalize_tokens a σ).
Proof. apply foldl_app. Qed.


Lemma normalize_tokens_other ts (σ : store) t :
  t ∉ ts -> normalize_tokens ts σ !! t = σ !! t.
Proof.
  revert σ. induction ts as [|t' ts IH]; intros σ Ht; simpl; [done|].
  apply not_elem_of_cons in Ht as [Hne Ht].
  rewrite (IH _ Ht). by apply lookup_alter_ne.
Qed.








(** The values of the tests of [ensure_space_after_octothorpe] and
    [ensure_space_comments]. *)
Example spaced_value_tests :
  spaced_value (py "#comment 2" ++ [NL] ++ py "#comment 3" ++ [NL])
  = py "# comment 2" ++ [NL] ++ py "# comment 3" ++ [NL]
  /\ spaced_value (py "# comment 1" ++ [NL]) = py "# comment 1" ++ [NL]
  /\ spaced_value (py "#comment 7" ++ [NL]) = py "# comment 7" ++ [NL].
Proof. vm_compute. done. Qed.

(** Induction over documents, with the hypothesis for every entry. *)
Lemma pyval_nested_ind (P : pyval -> Prop) :
  P PNone ->
  (forall s, P (PStr s)) ->
  (forall n, P (PNum n)) ->
  (forall v, P v -> P (PDQ v)) ->
  (forall ca items, Forall P items -> P (PList ca items)) ->
  (forall ca items, Forall (fun kv => P kv.2) items -> P (PDict ca items)) ->
  forall y, P y.
Proof.
  intros HNone HStr HNum HDQ HList HDict. fix IH 1.
  intros [ | s | n | v | ca items | ca items].
  - exact HNone.
  - apply HStr.
  - apply HNum.
  - apply HDQ, IH.
  - apply HList. induction items as [|x items IHitems]; constructor;
      [apply IH|exact IHitems].
  - apply HDict. induction items as [|[k x] items IHitems]; constructor;
      [apply IH|exact IHitems].
Qed.


End Walker.

(** ** Properties of the walk *)




(** ** Facts about the canonical writer *)

Section Writer.

Lemma for_each_outcome {A S} (P : outcome -> Prop) (body : A -> S -> S * outcome) l σ :
  P Returned ->
  (forall x σ', x ∈ l -> P (body x σ').2) ->
  P (for_each body l σ).2.
Proof.
  intros H0 Hbody. revert σ. induction l as [|x l IH]; intros σ; [done|].
  simpl. pose proof (Hbody x σ (list_elem_of_here x l)) as Hx.
  destruct (body x σ) as [σ' [|e]]; [|done].
  apply IH. intros x' σ'' Hx'. apply Hbody. by apply list_elem_of_further.
Qed.

Lemma ensure_space_comments_outcome cs (σ : store) :
  walk_outcome (ensure_space_comments cs σ).2.
Proof.
  unfold ensure_space_comments.
  apply (for_each_outcome walk_outcome); [by left|]. intros c σ' _.
  destruct c as [|t|l]; [by left|by left|].
  apply (for_each_outcome walk_outcome); [by left|]. intros c' σ'' _.
  destruct c'; [by left|by left|by right].
Qed.

Lemma walk_outcome_only y : forall σ : store, walk_outcome (update_yaml_comments y σ).2.
Proof.
  induction y as [ | s | n | v _ | ca items IH | ca items IH] using pyval_nested_ind;
    intros σ; try by right.
  - destruct ca as [r|]; [|by right]. cbn [update_yaml_comments].
    pose proof (ensure_space_comments_outcome (map snd r) σ) as Hr.
    destruct (ensure_space_comments (map snd r) σ) as [σ1 [|e]]; [|done].
    apply (for_each_outcome walk_outcome); [by left|]. intros e σ' He.
    destruct (is_dict_or_list e); [|by left].
    rewrite Forall_forall in IH. by apply IH.
  - destruct ca as [r|]; [|by right]. cbn [update_yaml_comments].
    pose proof (ensure_space_comments_outcome (map snd r) σ) as Hr.
    destruct (ensure_space_comments (map snd r) σ) as [σ1 [|e]]; [|done].
    apply (for_each_outcome walk_outcome); [by left|]. intros [k e] σ' He.
    destruct (is_dict_or_list e); [|by left].
    rewrite Forall_forall in IH. by apply (IH (k, e)).
Qed.



Lemma quoted_field v : field_ok v = true -> quoted v = Ok (wrap_value v).
Proof. by destruct v. Qed.

Lemma dict_set_middle k q v pre rest :
  k ∉ map fst pre ->
  dict_set k q (pre ++ (k, v) :: rest) = pre ++ (k, q) :: rest.
Proof.
  induction pre as [|[k' v'] pre IH]; simpl; intros Hk.
  - by rewrite decide_True.
  - apply not_elem_of_cons in Hk as [Hne Hk].
    rewrite decide_False by done. by rewrite IH.
Qed.

(** The loop over the fields, begun with [pre] already done. *)
Lemma quote_fields pre todo :
  NoDup (map fst (pre ++ todo)) ->
  Forall (fun kv => field_ok kv.2 = true) todo ->
  for_each quote_field todo (pre ++ todo)
  = (pre ++ map (fun kv => (kv.1, wrap_value kv.2)) todo, Returned).
Proof.
  revert pre. induction todo as [|[k v] todo IH]; intros pre Hnd Hok.
  - by rewrite !app_nil_r.
  - apply Forall_cons in Hok as [Hv Hok]. simpl in Hv.
    cbn [for_each quote_field]. rewrite (quoted_field v Hv).
    rewrite dict_set_middle.
    2:{ rewrite map_app in Hnd. apply NoDup_app in Hnd as (_ & Hnd & _).
        intros Hk. apply (Hnd k Hk). simpl. apply list_elem_of_here. }
    replace (pre ++ (k, wrap_value v) :: todo)
      with ((pre ++ [(k, wrap_value v)]) ++ todo) by by rewrite <- app_assoc.
    rewrite IH; [by rewrite <- app_assoc| |done].
    rewrite <- app_assoc. simpl.
    rewrite map_app in Hnd |- *. exact Hnd.
Qed.

Lemma quote_entry_record e :
  record_ok e -> quote_entry e = (wrap_record e, Returned).
Proof.
  destruct e as [ | | | | | ca fields]; try done. intros [Hnd Hok]. simpl.
  pose proof (quote_fields [] fields Hnd Hok) as H. simpl in H. by rewrite H.
Qed.

Lemma quote_entries_records entries :
  Forall record_ok entries ->
  quote_entries entries = (map wrap_record entries, Returned).
Proof.
  induction 1 as [|e entries He _ IH]; [done|].
  simpl. by rewrite (quote_entry_record e He), IH.
Qed.

End Writer.

(** ** Properties of the walk and the writer at documents without registry *)



(** ** Properties of the canonical writer *)




(** C7.  For a document whose [parsed_sample] is a list of records,
    [ensure_yaml_standards] leaves every field that is a string or a number
    wrapped for double quotes and every field that is a list replaced by
    the list of its elements, each wrapped; the fields keep their names and
    their order, and the records their order and number. *)
Theorem quoting_pass (ca sca : option registry) (items : list (pykey * pyval))
    (entries : list pyval) (output_path : pystr) (w : world) :
  dict_get (KStr (py "parsed_sample")) items = Some (PList sca entries) ->
  Forall record_ok entries ->
  (ensure_yaml_standards (PDict ca items) output_path w).1.1
  = PDict ca (dict_set (KStr (py "parsed_sample"))
                (PList sca (map wrap_record entries)) items)
  /\ map record_keys (map wrap_record entries) = map record_keys entries
  /\ length (map wrap_record entries) = length entries.
Proof.
  intros Hget Hentries. split; [|split].
  - unfold ensure_yaml_standards. simpl. rewrite Hget. simpl.
    rewrite (quote_entries_records entries Hentries).
    destruct (update_yaml_comments _ (comments w)) as [σ [|[]]]; try done;
      by destruct (write_yaml _ output_path _).
  - clear Hget. induction Hentries as [|e entries He _ IH]; [done|].
    simpl. rewrite IH. f_equal.
    destruct e as [ | | | | | eca fields]; try done. simpl.
    rewrite map_map. by apply map_ext.
  - apply length_map.
Qed.

(** C7 at the loaded file with two records. *)
Lemma quoting_pass_witness :
  (ensure_yaml_standards ex_parsed (py "out.yml") ex_world).1.1
  = PDict (Some [(KStr (py "parsed_sample"), [CNone; CNone; CTok 0; CNone])])
      [(KStr (py "parsed_sample"),
         PList (Some [])
           [PDict (Some [(KStr (py "vlan"), [CNone; CNone; CTok 1; CNone])])
              [(KStr (py "vlan"), PDQ (PStr (py "10")));
               (KStr (py "ports"),
                 PList None [PDQ (PStr (py "Gi0/1")); PDQ (PStr (py "Gi0/2"))])];
            PDict (Some [(KStr (py "vlan"), [CNone; CNone; CTok 2; CNone])])
              [(KStr (py "vlan"), PDQ (PNum 20));
               (KStr (py "ports"), PList None [])]])].
Proof.
  refine (proj1 (quoting_pass (Some ex_parsed_registry) (Some [])
                   [(KStr (py "parsed_sample"), PList (Some []) ex_records)]
                   ex_records (py "out.yml") ex_world eq_refl _)).
  repeat constructor; compute_done.
Defined.

(** ** Properties of the test-file names *)

Section Paths.

Lemma endswith_sep_app a b : b <> [] -> endswith_sep (a ++ b) = endswith_sep b.
Proof.
  intros Hb. unfold endswith_sep. rewrite last_app.
  destruct (last b) eqn:E; [done|]. by apply last_None in E.
Qed.

Lemma startswith_sep_app a b : a <> [] -> startswith_sep (a ++ b) = startswith_sep a.
Proof. by destruct a. Qed.

Lemma replace_startswith c : startswith_sep (replace SP UNDERSCORE c) = startswith_sep c.
Proof.
  destruct c as [|x c]; [done|]. simpl.
  destruct (x =? SP) eqn:E; [|done]. apply N.eqb_eq in E. by subst x.
Qed.

Lemma replace_endswith c : endswith_sep (replace SP UNDERSCORE c) = endswith_sep c.
Proof.
  unfold endswith_sep, replace.
  change (map ?f c) with (f <$> c). rewrite fmap_last.
  destruct (last c) as [x|]; [|done]. simpl.
  destruct (x =? SP) eqn:E; [|done]. apply N.eqb_eq in E. by subst x.
Qed.

Lemma replace_nil c : replace SP UNDERSCORE c = [] -> c = [].
Proof. by destruct c. Qed.

Lemma plain_name_inv s :
  plain_name s = true -> s <> [] /\ startswith_sep s = false /\ endswith_sep s = false.
Proof.
  unfold plain_name. intros [[H1 H2]%andb_true_iff H3]%andb_true_iff.
  apply negb_true_iff in H1, H2, H3. by apply bool_decide_eq_false in H1.
Qed.

(** One step of [os.path.join] onto a path that does not end in a
    separator. *)
Lemma join_step path b :
  path <> [] -> endswith_sep path = false -> startswith_sep b = false ->
  join_onto path b = path ++ [SLASH] ++ b.
Proof.
  intros Hp He Hb. unfold join_onto. rewrite Hb, He.
  by rewrite bool_decide_eq_false_2.
Qed.

End Paths.

(** C9, as stated, fails.  For index 2 the raw file carries the index and
    the template file does not. *)
Lemma template_index_counterexample :
  get_test_files (Some (py "cisco_ios")) (py "cisco_ios") (py "show version") 2
  = Ok (py "tests/cisco_ios/show_version/cisco_ios_show_version2.raw",
        py "ntc_templates/templates/cisco_ios_show_version.textfsm")
  /\ py "ntc_templates/templates/cisco_ios_show_version.textfsm"
     <> py "ntc_templates/templates/cisco_ios_show_version2.textfsm".
Proof. vm_compute. split; [reflexivity|discriminate]. Qed.

(** C9, amended.  With the vendor that the module holds given as argument
    too, and vendor and command each a plain name (not empty, no slash at
    either end): the raw file is
    [tests/{vendor}/{command}/{vendor}_{command}{index}.raw], the index
    written only when it is greater than 1, and the template file is
    [ntc_templates/templates/{vendor}_{command}.textfsm], never with an
    index; [{command}] is the command with every space replaced by an
    underscore. *)
Theorem test_file_names (vendor command : pystr) (index : Z) :
  plain_name vendor = true ->
  plain_name command = true ->
  get_test_files (Some vendor) vendor command index
  = Ok (py "tests/" ++ vendor ++ py "/" ++ replace SP UNDERSCORE command ++ py "/"
          ++ vendor ++ py "_" ++ replace SP UNDERSCORE command
          ++ (if (1 <? index)%Z then str_of_int index else []) ++ py ".raw",
        py "ntc_templates/templates/" ++ vendor ++ py "_"
          ++ replace SP UNDERSCORE command ++ py ".textfsm").
Proof.
  intros (Hv & Hvs & Hve)%plain_name_inv (Hc & Hcs & Hce)%plain_name_inv.
  set (cmd := replace SP UNDERSCORE command).
  assert (cmd <> []) as Hcmd by (intros H; by apply replace_nil in H).
  assert (startswith_sep cmd = false) as Hcmds by by (unfold cmd; rewrite replace_startswith).
  assert (endswith_sep cmd = false) as Hcmde by by (unfold cmd; rewrite replace_endswith).
  unfold get_test_files, os_path_join. fold cmd. cbn [foldl]. f_equal. f_equal.
  - rewrite (join_step (py "tests") vendor) by done.
    rewrite (join_step _ cmd); [| by destruct vendor | | done].
    2:{ rewrite !endswith_sep_app; done. }
    rewrite join_step.
    + destruct (1 <? index)%Z; by app_norm.
    + done.
    + rewrite !endswith_sep_app; done.
    + destruct (1 <? index)%Z; rewrite <- ?app_assoc; by rewrite startswith_sep_app.
  - rewrite (join_step (py "ntc_templates") (py "templates")) by done.
    rewrite join_step; [by app_norm|done|done|].
    rewrite <- ?app_assoc; by rewrite startswith_sep_app.
Qed.

(** C9, amended, at a vendor and a command with two spaces. *)
Lemma test_file_names_witness :
  get_test_files (Some (py "cisco_ios")) (py "cisco_ios") (py "show ip route") 1
  = Ok (py "tests/cisco_ios/show_ip_route/cisco_ios_show_ip_route.raw",
        py "ntc_templates/templates/cisco_ios_show_ip_route.textfsm")
  /\ get_test_files (Some (py "cisco_ios")) (py "cisco_ios") (py "show ip route") 12
     = Ok (py "tests/cisco_ios/show_ip_route/cisco_ios_show_ip_route12.raw",
           py "ntc_templates/templates/cisco_ios_show_ip_route.textfsm").
Proof.
  split.
  - exact (test_file_names (py "cisco_ios") (py "show ip route") 1 eq_refl eq_refl).
  - exact (test_file_names (py "cisco_ios") (py "show ip route") 12 eq_refl eq_refl).
Defined.

(** C10.  The result of [get_test_files] is the same whatever is passed as
    its first argument: the body reads [vendor_os] of the module, not the
    parameter [vender_os]; and when the module has no such name the call
    fails with [NameError] whatever is passed. *)
Theorem vendor_argument_unused (vendor_os : option pystr)
    (vender_os vender_os' command : pystr) (index : Z) :
  get_test_files vendor_os vender_os command index
  = get_test_files vendor_os vender_os' command index
  /\ get_test_files None vender_os command index = Err NameError.
Proof. split; reflexivity. Qed.

(** ** More on the walk: what a walk that fails has done *)

Section WalkPrefix.

Lemma for_each_tokens {A} (body : A -> store -> store * outcome)
    (toks : A -> list nat) (l : list A) (σ : store) :
  (forall x σ', x ∈ l ->
     exists pre, pre `prefix_of` toks x
       /\ (body x σ').1 = normalize_tokens pre σ'
       /\ ((body x σ').2 = Returned -> pre = toks x)) ->
  exists pre, pre `prefix_of` concat (map toks l)
    /\ (for_each body l σ).1 = normalize_tokens pre σ
    /\ ((for_each body l σ).2 = Returned -> pre = concat (map toks l)).
Proof.
  revert σ. induction l as [|x l IH]; intros σ Hbody.
  - exists []. by repeat split.
  - destruct (Hbody x σ (list_elem_of_here x l)) as (p1 & Hp1 & Hσ1 & Hret1).
    cbn [for_each map concat].
    destruct (body x σ) as [σ1 [|e]] eqn:E; simpl in *.
    + specialize (Hret1 eq_refl). subst p1 σ1.
      destruct (IH (normalize_tokens (toks x) σ)) as (p2 & Hp2 & Hσ2 & Hret2).
      { intros x' σ' Hx'. apply Hbody. by apply list_elem_of_further. }
      exists (toks x ++ p2). split; [by apply prefix_app|].
      split; [by rewrite normalize_tokens_app|].
      intros Hr. by rewrite (Hret2 Hr).
    + exists p1. split; [by apply prefix_app_r|]. by split.
Qed.

Lemma comment_objects_tokens cs (σ : store) :
  exists pre, pre `prefix_of` concat (map slot_tokens cs)
    /\ (for_each
          (fun comment =>
             match comment with
             | CList l => for_each ensure_space_after_octothorpe l
             | _ => ensure_space_after_octothorpe comment
             end) cs σ).1 = normalize_tokens pre σ
    /\ ((for_each
           (fun comment =>
              match comment with
              | CList l => for_each ensure_space_after_octothorpe l
              | _ => ensure_space_after_octothorpe comment
              end) cs σ).2 = Returned -> pre = concat (map slot_tokens cs)).
Proof.
  apply for_each_tokens. intros c σ' _. destruct c as [|t|l].
  - exists []. by repeat split.
  - exists [t]. by repeat split.
  - apply (for_each_tokens ensure_space_after_octothorpe
             (fun c' => match c' with CTok t => [t] | _ => [] end)).
    intros c' σ'' _. destruct c' as [|t|l']; simpl.
    + exists []. by repeat split.
    + exists [t]. by repeat split.
    + exists []. by repeat split.
Qed.

Lemma walk_tokens y :
  forall σ : store,
  exists pre, pre `prefix_of` doc_tokens y
    /\ (update_yaml_comments y σ).1 = normalize_tokens pre σ
    /\ ((update_yaml_comments y σ).2 = Returned -> pre = doc_tokens y).
Proof.
  induction y as [ | s | n | v _ | ca items IH | ca items IH] using pyval_nested_ind;
    intros σ; try (exists []; by repeat split).
  - destruct ca as [r|]; [|exists []; repeat split; [apply prefix_nil|done]].
    cbn [update_yaml_comments doc_tokens ca_tokens].
    destruct (comment_objects_tokens (concat (map snd r)) σ) as (p1 & Hp1 & Hσ1 & Hret1).
    fold (ensure_space_comments (map snd r) σ) in Hσ1, Hret1.
    fold (registry_tokens r) in Hp1, Hret1.
    destruct (ensure_space_comments (map snd r) σ) as [σ1 [|e]]; simpl in *.
    + specialize (Hret1 eq_refl). subst p1 σ1.
      destruct (for_each_tokens
                  (fun entry σ' =>
                     if is_dict_or_list entry then update_yaml_comments entry σ'
                     else (σ', Returned))
                  doc_tokens items (normalize_tokens (registry_tokens r) σ))
        as (p2 & Hp2 & Hσ2 & Hret2).
      { intros e σ' He. destruct (is_dict_or_list e) eqn:Ek.
        - rewrite Forall_forall in IH. by apply IH.
        - exists []. simpl. repeat split; [apply prefix_nil|]. by destruct e. }
      exists (registry_tokens r ++ p2). split; [by apply prefix_app|].
      split; [by rewrite normalize_tokens_app|].
      intros Hr. by rewrite (Hret2 Hr).
    + exists p1. split; [by apply prefix_app_r|]. by split.
  - destruct ca as [r|]; [|exists []; repeat split; [apply prefix_nil|done]].
    cbn [update_yaml_comments doc_tokens ca_tokens].
    destruct (comment_objects_tokens (concat (map snd r)) σ) as (p1 & Hp1 & Hσ1 & Hret1).
    fold (ensure_space_comments (map snd r) σ) in Hσ1, Hret1.
    fold (registry_tokens r) in Hp1, Hret1.
    destruct (ensure_space_comments (map snd r) σ) as [σ1 [|e]]; simpl in *.
    + specialize (Hret1 eq_refl). subst p1 σ1.
      destruct (for_each_tokens
                  (fun (kv : pykey * pyval) σ' =>
                     let '(_, entry) := kv in
                     if is_dict_or_list entry then update_yaml_comments entry σ'
                     else (σ', Returned))
                  (fun kv : pykey * pyval => let '(_, e) := kv in doc_tokens e)
                  items (normalize_tokens (registry_tokens r) σ))
        as (p2 & Hp2 & Hσ2 & Hret2).
      { intros [k e] σ' He. destruct (is_dict_or_list e) eqn:Ek.
        - rewrite Forall_forall in IH. by apply (IH (k, e)).
        - exists []. simpl. repeat split; [apply prefix_nil|]. by destruct e. }
      exists (registry_tokens r ++ p2). split; [by apply prefix_app|].
      split; [by rewrite normalize_tokens_app|].
      intros Hr. by rewrite (Hret2 Hr).
    + exists p1. split; [by apply prefix_app_r|]. by split.
Qed.

Lemma normalize_tokens_dom ts (σ : store) : dom (normalize_tokens ts σ) = dom σ.
Proof.
  revert σ. induction ts as [|t ts IH]; intros σ; simpl; [done|].
  by rewrite IH, dom_alter_L.
Qed.

End WalkPrefix.

(** X1.  Whatever the document and however the walk ends, the walk has
    rewritten an initial part of the tokens of the document, in the order of
    the walk, each once per passage, and all of them when it returns.  It
    leaves every token that is not attached in the document as it was, and
    it neither adds nor removes a token. *)
Theorem walk_rewrites_initial_tokens (y : pyval) (σ : store) :
  (exists pre,
      pre `prefix_of` doc_tokens y
      /\ (update_yaml_comments y σ).1 = normalize_tokens pre σ
      /\ ((update_yaml_comments y σ).2 = Returned -> pre = doc_tokens y))
  /\ (forall t, t ∉ doc_tokens y -> (update_yaml_comments y σ).1 !! t = σ !! t)
  /\ dom (update_yaml_comments y σ).1 = dom σ.
Proof.
  destruct (walk_tokens y σ) as (pre & Hpre & Hσ & Hret).
  split; [by exists pre|]. rewrite Hσ. split.
  - intros t Ht. apply normalize_tokens_other.
    intros Hin. apply Ht. destruct Hpre as [k ->]. apply elem_of_app. by left.
  - apply normalize_tokens_dom.
Qed.

(** ** More on the value given to a token *)

Section TokenValues.
Import Re.

Lemma partition_absent sep s : sep ∉ s -> partition sep s = (s, [], []).
Proof.
  induction s as [|c s IH]; [done|].
  intros [Hne Hs]%not_elem_of_cons. simpl.
  destruct (c =? sep) eqn:E; [apply N.eqb_eq in E; congruence|].
  by rewrite (IH Hs).
Qed.

Lemma partition_found sep space r :
  sep ∉ space -> partition sep (space ++ sep :: r) = (space, [sep], r).
Proof.
  induction space as [|c space IH]; simpl.
  - by rewrite N.eqb_refl.
  - intros [Hne Hs]%not_elem_of_cons.
    destruct (c =? sep) eqn:E; [apply N.eqb_eq in E; congruence|].
    by rewrite (IH Hs).
Qed.

Lemma rstrip_snoc_space s c : is_space c = true -> rstrip (s ++ [c]) = rstrip s.
Proof.
  intros Hc. unfold rstrip. rewrite rev_app_distr. simpl. by rewrite Hc.
Qed.

Lemma trimmed_lclean t : trimmed t -> lclean t.
Proof. intros <-. apply rstrip_lclean, lstrip_lclean. Qed.

Lemma count_snoc_nl b t : count_markers b (t ++ [NL]) = count_markers b t.
Proof.
  revert b. induction t as [|c t IH]; intros b; simpl; [done|].
  destruct (c =? NL); [done|]. destruct (is_space c); [done|].
  destruct ((c =? HASH) && b); by rewrite IH.
Qed.

Lemma strip_padded t : trimmed t -> strip (SP :: t ++ [NL]) = t.
Proof.
  intros Ht. destruct (decide (t = [])) as [->|Hne]; [done|].
  rewrite (strip_space SP _ eq_refl). unfold strip.
  rewrite (lclean_lstrip (t ++ [NL])).
  - rewrite (rstrip_snoc_space t NL eq_refl).
    pose proof (trimmed_lclean t Ht) as Hc. unfold trimmed, strip in Ht.
    by rewrite (lclean_lstrip t Hc) in Ht.
  - pose proof (trimmed_lclean t Ht) as Hc. by destruct t.
Qed.

Lemma spaced_value_found space r :
  HASH ∉ space ->
  spaced_value (space ++ HASH :: r)
  = space ++ py "# " ++ lstrip (ensure_spacing_for_multiline_comment r) ++ [NL].
Proof. intros Hs. unfold spaced_value. by rewrite (partition_found HASH space r Hs). Qed.

Lemma findall_normalized_nl first t ts :
  no_nl first = true ->
  Forall (fun t => no_nl t = true) (t :: ts) ->
  findall RE_MULTILINE_REMARK (first ++ concat (map continuation (t :: ts)) ++ [NL])
  = (first ++ [NL; HASH], SP :: t) :: map (fun t' => ([NL; HASH], SP :: t')) ts.
Proof.
  intros Hfirst Hts. revert first t Hfirst Hts.
  induction ts as [|t' ts IH]; intros first t Hfirst Hts;
    apply Forall_cons in Hts as [Ht Hts].
  - cbn [map concat]. rewrite <- app_assoc.
    rewrite findall_continuation by done. by rewrite findall_unfold.
  - change (concat (map continuation (t :: t' :: ts)))
      with (continuation t ++ concat (map continuation (t' :: ts))).
    rewrite <- app_assoc. rewrite findall_continuation by done.
    f_equal. apply (IH [] t' eq_refl Hts).
Qed.

End TokenValues.

(** X2.  A token whose value has no octothorpe at all (the token of a blank
    line) is given one: the old value is kept and an octothorpe, a space
    and a newline are put after it. *)
Theorem token_without_marker (value : pystr) :
  HASH ∉ value ->
  spaced_value value = value ++ py "# " ++ [NL].
Proof.
  intros Hv. unfold spaced_value. by rewrite (partition_absent HASH value Hv).
Qed.

(** X2 at the token of a blank line. *)
Lemma token_without_marker_witness :
  spaced_value [NL] = [NL] ++ py "# " ++ [NL].
Proof.
  apply (token_without_marker [NL]).
  compute_done.
Defined.

(** X3.  A comment of one line: when the text after the first octothorpe
    has no continuation marker, the token is given what stood before the
    octothorpe, the octothorpe, one space, the text without the whitespace
    at its ends, and a newline; and rewriting that value again changes
    nothing. *)
Theorem single_comment_normal_form (space r : pystr) :
  HASH ∉ space ->
  continuation_markers r = O ->
  spaced_value (space ++ HASH :: r) = space ++ py "# " ++ strip r ++ [NL]
  /\ spaced_value (space ++ py "# " ++ strip r ++ [NL])
     = space ++ py "# " ++ strip r ++ [NL].
Proof.
  intros Hs Hr.
  assert (forall t, trimmed t -> continuation_markers t = O ->
            spaced_value (space ++ HASH :: SP :: t ++ [NL])
            = space ++ py "# " ++ t ++ [NL]) as Hfix.
  { intros t Ht Hm. rewrite (spaced_value_found space _ Hs).
    rewrite normaliser_no_match.
    - rewrite (strip_padded t Ht). simpl.
      by rewrite (lclean_lstrip t (trimmed_lclean t Ht)).
    - apply findall_nil_iff. unfold continuation_markers in *. simpl.
      by rewrite count_snoc_nl. }
  split.
  - rewrite (spaced_value_found space r Hs).
    rewrite (normaliser_no_match r) by by apply findall_nil_iff.
    simpl. by rewrite (lclean_lstrip (strip r) (trimmed_lclean _ (strip_trimmed r))).
  - apply Hfix; [apply strip_trimmed|].
    pose proof (count_strip r) as Hle. lia.
Qed.

(** X3 at a comment after a value, with its text in the wrong place. *)
Lemma single_comment_normal_form_witness :
  spaced_value (py "  " ++ HASH :: py "   comment 1  " ++ [NL])
  = py "  " ++ py "# " ++ strip (py "   comment 1  " ++ [NL]) ++ [NL]
  /\ spaced_value (py "  " ++ py "# " ++ strip (py "   comment 1  " ++ [NL]) ++ [NL])
     = py "  " ++ py "# " ++ strip (py "   comment 1  " ++ [NL]) ++ [NL].
Proof.
  apply (single_comment_normal_form (py "  ") (py "   comment 1  " ++ [NL])).
  - compute_done.
  - reflexivity.
Defined.

(** X4.  A comment of several lines in normal form is a fixed point: a
    value made of text without octothorpe, then an octothorpe, one space
    and a remark, then continuation lines (newline, octothorpe, one space,
    remark), then a newline, all remarks without newline and without
    whitespace at their ends and the first one not empty, is given back as
    it is. *)
Theorem normalized_token_fixed (space first t : pystr) (ts : list pystr) :
  HASH ∉ space ->
  first <> [] ->
  Forall (fun t' => no_nl t' = true /\ trimmed t') (first :: t :: ts) ->
  spaced_value (space ++ py "# " ++ normalized_remark first (t :: ts) ++ [NL])
  = space ++ py "# " ++ normalized_remark first (t :: ts) ++ [NL].
Proof.
  intros Hs Hne [[Hnl Htrim] Hts]%Forall_cons.
  change (space ++ py "# " ++ normalized_remark first (t :: ts) ++ [NL])
    with (space ++ HASH :: (normalized_remark (SP :: first) (t :: ts) ++ [NL])).
  rewrite (spaced_value_found space _ Hs). do 2 f_equal.
  unfold normalized_remark at 1. rewrite <- app_assoc.
  erewrite normaliser_match; [|apply findall_normalized_nl].
  - rewrite render_units.
    + unfold normalized_remark. simpl.
      pose proof (trimmed_lclean first Htrim) as Hc.
      destruct first as [|c first]; [done|]. simpl in *. by rewrite Hc.
    + eapply Forall_impl; [exact Hts|]. by intros ? [].
  - simpl. exact Hnl.
  - eapply Forall_impl; [exact Hts|]. by intros ? [].
Qed.

(** X4 at the value that the test of [ensure_space_after_octothorpe]
    expects. *)
Lemma normalized_token_fixed_witness :
  spaced_value ([] ++ py "# " ++ normalized_remark (py "comment 2") [py "comment 3"] ++ [NL])
  = [] ++ py "# " ++ normalized_remark (py "comment 2") [py "comment 3"] ++ [NL].
Proof.
  apply (normalized_token_fixed [] (py "comment 2") (py "comment 3") []).
  - apply not_elem_of_nil.
  - discriminate.
  - repeat constructor.
Defined.

(** ** More on the quoting pass *)

Section QuotingFailures.

(** The loop over the fields up to a value that cannot be quoted. *)
Lemma quote_fields_stop pre todo k post :
  NoDup (map fst (pre ++ todo ++ (k, PNone) :: post)) ->
  Forall (fun kv => field_ok kv.2 = true) todo ->
  for_each quote_field (todo ++ (k, PNone) :: post) (pre ++ todo ++ (k, PNone) :: post)
  = (pre ++ map (fun kv => (kv.1, wrap_value kv.2)) todo ++ (k, PNone) :: post,
     Raised TypeError).
Proof.
  revert pre. induction todo as [|[k' v] todo IH]; intros pre Hnd Hok; [done|].
  apply Forall_cons in Hok as [Hv Hok]. simpl in Hv.
  cbn [for_each quote_field app]. rewrite (quoted_field v Hv).
  rewrite dict_set_middle.
  2:{ rewrite map_app in Hnd. apply NoDup_app in Hnd as (_ & Hnd & _).
      intros Hk. apply (Hnd k' Hk). simpl. apply list_elem_of_here. }
  replace (pre ++ (k', wrap_value v) :: todo ++ (k, PNone) :: post)
    with ((pre ++ [(k', wrap_value v)]) ++ todo ++ (k, PNone) :: post)
    by by rewrite <- app_assoc.
  rewrite IH; [by rewrite <- app_assoc| |done].
  rewrite <- app_assoc. simpl. rewrite !map_app in Hnd |- *. exact Hnd.
Qed.

Lemma quote_entries_stop good bad bad' rest e :
  Forall record_ok good ->
  quote_entry bad = (bad', Raised e) ->
  quote_entries (good ++ bad :: rest) = (map wrap_record good ++ bad' :: rest, Raised e).
Proof.
  intros Hgood Hbad. induction Hgood as [|g good Hg _ IH]; simpl.
  - by rewrite Hbad.
  - by rewrite (quote_entry_record g Hg), IH.
Qed.

Lemma for_each_never_returns {A S} (body : A -> S -> S * outcome) l x σ :
  x ∈ l ->
  (forall σ', (body x σ').2 <> Returned) ->
  (for_each body l σ).2 <> Returned.
Proof.
  intros Hx Hbody. revert σ. induction Hx as [x l|x y l Hx IH]; intros σ; simpl.
  - specialize (Hbody σ). by destruct (body x σ) as [σ' [|e]].
  - destruct (body y σ) as [σ' [|e]]; [by apply IH|done].
Qed.

Lemma dict_set_elem k v v0 d : dict_get k d = Some v0 -> (k, v) ∈ dict_set k v d.
Proof.
  induction d as [|[k' v'] d IH]; simpl; [done|].
  destruct (decide (k' = k)) as [->|Hne].
  - intros _. apply list_elem_of_here.
  - intros H. apply list_elem_of_further. by apply IH.
Qed.

(** The walk over a record whose list was replaced by a plain list. *)
Lemma walk_wrapped_record e (σ : store) :
  record_ok e -> has_list_field e = true ->
  (update_yaml_comments (wrap_record e) σ).2 <> Returned.
Proof.
  destruct e as [ | | | | | eca fields]; try done. intros _ Hlist.
  destruct eca as [r|]; [|done]. cbn [wrap_record update_yaml_comments].
  destruct (ensure_space_comments (map snd r) σ) as [σ1 [|e]]; [|done].
  simpl in Hlist. apply existsb_exists in Hlist as ([k v] & Hin & Hv).
  destruct v as [ | | | | lca l | ]; try done.
  apply (for_each_never_returns _ _ (k, PList None (map PDQ l))).
  - apply list_elem_of_In, in_map_iff. by exists (k, PList lca l).
  - done.
Qed.

End QuotingFailures.

(** X5.  A value that is [None] stops the quoting pass with [TypeError]:
    the records before it are quoted, the fields before it in its record
    are quoted, everything after it is as it was, no comment is rewritten
    and no file is written. *)
Theorem quoting_stops_at_none (ca sca eca : option registry)
    (items pre post : list (pykey * pyval)) (good rest : list pyval) (k : pykey)
    (output_path : pystr) (w : world) :
  dict_get (KStr (py "parsed_sample")) items
  = Some (PList sca (good ++ PDict eca (pre ++ (k, PNone) :: post) :: rest)) ->
  Forall record_ok good ->
  NoDup (map fst (pre ++ (k, PNone) :: post)) ->
  Forall (fun kv => field_ok kv.2 = true) pre ->
  ensure_yaml_standards (PDict ca items) output_path w
  = (PDict ca
       (dict_set (KStr (py "parsed_sample"))
          (PList sca
             (map wrap_record good
                ++ PDict eca (map (fun kv => (kv.1, wrap_value kv.2)) pre
                                ++ (k, PNone) :: post) :: rest))
          items),
     w, Raised TypeError).
Proof.
  intros Hget Hgood Hnd Hpre. unfold ensure_yaml_standards. simpl. rewrite Hget. simpl.
  rewrite (quote_entries_stop good _
             (PDict eca (map (fun kv => (kv.1, wrap_value kv.2)) pre ++ (k, PNone) :: post))
             rest TypeError Hgood); [done|].
  simpl. pose proof (quote_fields_stop [] pre k post Hnd Hpre) as H.
  simpl in H. by rewrite H.
Qed.

(** X5 at two records, the second with [None] for its second field. *)
Lemma quoting_stops_at_none_witness :
  ensure_yaml_standards
    (PDict None
       [(KStr (py "parsed_sample"),
          PList None
            ([PDict None [(KStr (py "vlan"), PStr (py "10"))]]
               ++ PDict None ([(KStr (py "vlan"), PStr (py "20"))]
                                ++ (KStr (py "name"), PNone)
                                :: [(KStr (py "ports"), PStr (py "Gi0/1"))])
               :: [PDict None [(KStr (py "vlan"), PStr (py "30"))]]))])
    (py "out.yml") ex_world
  = (PDict None
       [(KStr (py "parsed_sample"),
          PList None
            [PDict None [(KStr (py "vlan"), PDQ (PStr (py "10")))];
             PDict None [(KStr (py "vlan"), PDQ (PStr (py "20")));
                         (KStr (py "name"), PNone);
                         (KStr (py "ports"), PStr (py "Gi0/1"))];
             PDict None [(KStr (py "vlan"), PStr (py "30"))]])],
     ex_world, Raised TypeError).
Proof.
  refine (quoting_stops_at_none None None None
            [(KStr (py "parsed_sample"),
               PList None
                 ([PDict None [(KStr (py "vlan"), PStr (py "10"))]]
                    ++ PDict None ([(KStr (py "vlan"), PStr (py "20"))]
                                     ++ (KStr (py "name"), PNone)
                                     :: [(KStr (py "ports"), PStr (py "Gi0/1"))])
                    :: [PDict None [(KStr (py "vlan"), PStr (py "30"))]]))]
            [(KStr (py "vlan"), PStr (py "20"))]
            [(KStr (py "ports"), PStr (py "Gi0/1"))]
            [PDict None [(KStr (py "vlan"), PStr (py "10"))]]
            [PDict None [(KStr (py "vlan"), PStr (py "30"))]]
            (KStr (py "name")) (py "out.yml") ex_world eq_refl _ _ _).
  - repeat constructor; compute_done.
  - compute_done.
  - repeat constructor.
Defined.

(** X6.  When a record of a document has a field that is a list, the walk
    that follows the quoting pass never comes to its end: the quoting pass
    has put a plain list in the place of the list, and the walk ends with
    [AttributeError] at the latest there.  [ensure_yaml_standards] then
    ends as the writing of the file ends. *)
Theorem list_field_aborts_walk (ca sca : option registry)
    (items : list (pykey * pyval)) (entries : list pyval)
    (output_path : pystr) (w : world) :
  dict_get (KStr (py "parsed_sample")) items = Some (PList sca entries) ->
  Forall record_ok entries ->
  Exists (fun e => has_list_field e = true) entries ->
  let po := (ensure_yaml_standards (PDict ca items) output_path w).1.1 in
  let walk := update_yaml_comments po (comments w) in
  walk.2 = Raised AttributeError
  /\ ensure_yaml_standards (PDict ca items) output_path w
     = (po,
        (write_yaml po output_path
           (World walk.1 (open_error w) (dump_error w) (files w))).1,
        (write_yaml po output_path
           (World walk.1 (open_error w) (dump_error w) (files w))).2).
Proof.
  intros Hget Hentries Hlist.
  assert (quote_pass (PDict ca items)
          = (PDict ca (dict_set (KStr (py "parsed_sample"))
                         (PList sca (map wrap_record entries)) items), Returned)) as Hq.
  { simpl. rewrite Hget. simpl. by rewrite (quote_entries_records entries Hentries). }
  assert ((ensure_yaml_standards (PDict ca items) output_path w).1.1
          = PDict ca (dict_set (KStr (py "parsed_sample"))
                        (PList sca (map wrap_record entries)) items)) as Hpo.
  { unfold ensure_yaml_standards. rewrite Hq.
    destruct (update_yaml_comments _ (comments w)) as [σ [|[]]]; try done;
      by destruct (write_yaml _ output_path _). }
  intros po walk. subst po walk. rewrite Hpo.
  set (po := PDict ca (dict_set (KStr (py "parsed_sample"))
                         (PList sca (map wrap_record entries)) items)) in *.
  assert ((update_yaml_comments po (comments w)).2 = Raised AttributeError) as Hwalk.
  { destruct (walk_outcome_only po (comments w)) as [Hret|Hraise]; [|done].
    exfalso. revert Hret. subst po. destruct ca as [r|]; [|done].
    cbn [update_yaml_comments].
    destruct (ensure_space_comments (map snd r) (comments w)) as [σ1 [|e]]; [|done].
    apply (for_each_never_returns _ _
             (KStr (py "parsed_sample"), PList sca (map wrap_record entries))).
    { by eapply dict_set_elem. }
    intros σ'. cbn [is_dict_or_list]. destruct sca as [sr|]; [|done].
    cbn [update_yaml_comments].
    destruct (ensure_space_comments (map snd sr) σ') as [σ2 [|e]]; [|done].
    apply Exists_exists in Hlist as (e & Hin & He).
    apply (for_each_never_returns _ _ (wrap_record e)).
    { apply list_elem_of_In, in_map. by apply list_elem_of_In. }
    intros σ''. rewrite Forall_forall in Hentries.
    pose proof (Hentries e Hin) as Hrec.
    destruct e as [ | | | | | eca fields]; try done. cbn [wrap_record is_dict_or_list].
    by apply (walk_wrapped_record (PDict eca fields)). }
  split; [exact Hwalk|].
  unfold ensure_yaml_standards. rewrite Hq.
  destruct (update_yaml_comments po (comments w)) as [σ o]. simpl in *. subst o.
  by destruct (write_yaml po output_path _).
Qed.

(** X6 at the loaded file with two records: the comment of the second
    record is not rewritten. *)
Lemma list_field_aborts_walk_witness :
  (update_yaml_comments (ensure_yaml_standards ex_parsed (py "out.yml") ex_world).1.1
     ex_parsed_store).2 = Raised AttributeError
  /\ (update_yaml_comments (ensure_yaml_standards ex_parsed (py "out.yml") ex_world).1.1
        ex_parsed_store).1 !! 2%nat = Some (py "#third" ++ [NL]).
Proof.
  destruct (list_field_aborts_walk (Some ex_parsed_registry) (Some [])
              [(KStr (py "parsed_sample"), PList (Some []) ex_records)] ex_records
              (py "out.yml") ex_world eq_refl) as [Hwalk _].
  - repeat constructor; compute_done.
  - apply Exists_cons_hd. reflexivity.
  - split; [exact Hwalk|]. vm_compute. reflexivity.
Defined.

(** ** The records of a parse *)

Section Records.
Variable lower : pystr -> pystr.

Lemma row_to_dict_long header index row d :
  (index <= length header < index + length row)%nat ->
  row_to_dict lower header index row d = Failed IndexError.
Proof.
  revert index d. induction row as [|e row IH]; intros index d Hlen; simpl in *; [lia|].
  destruct (header !! index) as [h|] eqn:E; [|done].
  apply lookup_lt_Some in E. apply IH. lia.
Qed.

Lemma row_to_dict_fold header index row d :
  (index + length row <= length header)%nat ->
  row_to_dict lower header index row d
  = Done (foldl (fun d' kv => dict_set kv.1 kv.2 d') d
            (zip_fields lower (drop index header) row)).
Proof.
  revert index d. induction row as [|e row IH]; intros index d Hlen; simpl in *.
  - unfold zip_fields. by destruct (drop index header).
  - destruct (header !! index) as [h|] eqn:E.
    2:{ apply lookup_ge_None in E. lia. }
    rewrite IH by lia. unfold zip_fields.
    rewrite (drop_S header h index E). done.
Qed.

Lemma dict_set_fresh k v d : k ∉ map fst d -> dict_set k v d = d ++ [(k, v)].
Proof.
  induction d as [|[k' v'] d IH]; simpl; [done|].
  intros [Hne Hk]%not_elem_of_cons. rewrite decide_False by done. by rewrite IH.
Qed.

Lemma dict_set_keys k v d :
  k ∈ map fst d -> map fst (dict_set k v d) = map fst d.
Proof.
  induction d as [|[k' v'] d IH]; simpl; [by intros ?%elem_of_nil|].
  destruct (decide (k' = k)) as [->|Hne]; [done|].
  intros [Heq|Hk]%elem_of_cons; [congruence|]. simpl. by rewrite IH.
Qed.

Lemma dict_set_NoDup k v d : NoDup (map fst d) -> NoDup (map fst (dict_set k v d)).
Proof.
  intros Hnd. destruct (decide (k ∈ map fst d)) as [Hin|Hout].
  - by rewrite dict_set_keys.
  - rewrite (dict_set_fresh k v d Hout), map_app. simpl.
    apply NoDup_app. repeat split; [done| |apply NoDup_singleton].
    intros x Hx Hx'. apply elem_of_cons in Hx' as [->|Hx']; [done|].
    by apply elem_of_nil in Hx'.
Qed.

Lemma dict_set_values (P : pyval -> Prop) k v d :
  P v -> Forall (fun kv => P kv.2) d -> Forall (fun kv => P kv.2) (dict_set k v d).
Proof.
  intros Hv. induction 1 as [|[k' v'] d Hkv Hd IH]; simpl.
  - by constructor.
  - destruct (decide (k' = k)); constructor; done.
Qed.

Lemma fold_dict_set_record (P : pyval -> Prop) kvs d :
  NoDup (map fst d) -> Forall (fun kv => P kv.2) d ->
  Forall (fun kv : pykey * pyval => P kv.2) kvs ->
  NoDup (map fst (foldl (fun d' kv => dict_set kv.1 kv.2 d') d kvs))
  /\ Forall (fun kv => P kv.2) (foldl (fun d' kv => dict_set kv.1 kv.2 d') d kvs).
Proof.
  revert d. induction kvs as [|[k v] kvs IH]; intros d Hnd Hd Hkvs; simpl; [done|].
  apply Forall_cons in Hkvs as [Hv Hkvs].
  apply IH; [by apply dict_set_NoDup|by apply dict_set_values|done].
Qed.

Lemma fold_dict_set_fresh kvs d :
  NoDup (map fst (d ++ kvs)) ->
  foldl (fun d' kv => dict_set kv.1 kv.2 d') d kvs = d ++ kvs.
Proof.
  revert d. induction kvs as [|[k v] kvs IH]; intros d Hnd; simpl.
  - by rewrite app_nil_r.
  - rewrite dict_set_fresh.
    + rewrite IH; rewrite <- app_assoc; done.
    + rewrite map_app in Hnd. apply NoDup_app in Hnd as (_ & Hnd & _).
      intros Hk. apply (Hnd k Hk). simpl. apply list_elem_of_here.
Qed.

Lemma zip_fields_keys header row :
  (length row <= length header)%nat ->
  map fst (zip_fields lower header row)
  = map (fun h => KStr (lower h)) (take (length row) header).
Proof.
  revert row. induction header as [|h header IH]; intros [|e row] Hlen; simpl in *;
    try done; try lia.
  f_equal. apply IH. lia.
Qed.

Lemma zip_fields_values (P : pyval -> Prop) header row :
  Forall P row -> Forall (fun kv => P kv.2) (zip_fields lower header row).
Proof.
  intros Hrow. revert header. induction Hrow as [|e row He Hrow IH]; intros [|h header];
    simpl; first [by constructor | constructor; [done|apply IH]].
Qed.

(** What the function gives when no row is longer than the header. *)
Lemma textfsm_done header reslut :
  Forall (fun row => (length row <= length header)%nat) reslut ->
  _textfsm_reslut_to_dict lower header reslut
  = Done (map (fun row =>
                 PDict None (foldl (fun d' kv => dict_set kv.1 kv.2 d') []
                               (zip_fields lower header row))) reslut).
Proof.
  induction 1 as [|row rows Hrow Hrows IH]; [done|].
  simpl. rewrite (row_to_dict_fold header 0 row []) by (simpl; lia).
  by rewrite IH.
Qed.

Lemma textfsm_long header reslut :
  Exists (fun row => (length header < length row)%nat) reslut ->
  _textfsm_reslut_to_dict lower header reslut = Failed IndexError.
Proof.
  induction 1 as [row rows Hrow|row rows Hrows IH]; simpl.
  - rewrite row_to_dict_long by (simpl; lia). done.
  - destruct (row_to_dict lower header 0 row []) as [d|e] eqn:E.
    + by rewrite IH.
    + destruct (decide (length row <= length header)%nat) as [Hle|Hgt].
      * rewrite row_to_dict_fold in E by (simpl; lia). discriminate E.
      * rewrite row_to_dict_long in E by (simpl; lia). by injection E as <-.
Qed.

Lemma textfsm_records_ok header reslut :
  Forall (Forall (fun e => field_ok e = true)) reslut ->
  Forall record_ok
    (map (fun row =>
            PDict None (foldl (fun d' kv => dict_set kv.1 kv.2 d') []
                          (zip_fields lower header row))) reslut).
Proof.
  induction 1 as [|row rows Hrow _ IH]; [constructor|].
  constructor; [|exact IH]. simpl.
  apply (fold_dict_set_record (fun v => field_ok v = true)).
  - apply NoDup_nil_2.
  - constructor.
  - by apply (zip_fields_values (fun v => field_ok v = true)).
Qed.

End Records.


(** X8.  When no two names of the header are the same once in lower case
    and no row is longer than the header, the record of a row pairs the
    names in lower case with the elements of the row, in the order of the
    header; names beyond the end of the row are left out. *)
Theorem textfsm_zips_header (lower : pystr -> pystr) (header : list pystr)
    (reslut : list (list pyval)) :
  NoDup (map lower header) ->
  Forall (fun row => (length row <= length header)%nat) reslut ->
  _textfsm_reslut_to_dict lower header reslut
  = Done (map (fun row => PDict None (zip_fields lower header row)) reslut).
Proof.
  intros Hnd Hrows. rewrite (textfsm_done lower header reslut Hrows). f_equal.
  apply map_ext_in. intros row Hin. f_equal.
  rewrite Forall_forall in Hrows.
  pose proof (Hrows row (proj2 (list_elem_of_In _ _) Hin)) as Hlen.
  rewrite fold_dict_set_fresh; [done|]. simpl.
  rewrite (zip_fields_keys lower header row Hlen).
  assert (NoDup (map lower (take (length row) header))) as Hnd'.
  { rewrite <- (take_drop (length row) header), map_app in Hnd.
    by apply NoDup_app in Hnd as (Hnd & _ & _). }
  clear -Hnd'. induction (take (length row) header) as [|h hs IH]; simpl;
    [apply NoDup_nil_2|].
  apply NoDup_cons in Hnd' as [Hh Hhs]. apply NoDup_cons. split; [|by apply IH].
  intros Hin. apply Hh. apply list_elem_of_In, in_map_iff in Hin as (h' & Heq & Hin).
  injection Heq as Heq. rewrite <- Heq. apply list_elem_of_In, in_map.
  exact Hin.
Qed.

(** X8 at a header of two names and two rows, the second with a list. *)
Lemma textfsm_zips_header_witness :
  _textfsm_reslut_to_dict ascii_lower [py "VLAN_ID"; py "Ports"]
    [[PStr (py "10"); PList None [PStr (py "Gi0/1")]]; [PStr (py "20")]]
  = Done [PDict None [(KStr (py "vlan_id"), PStr (py "10"));
                      (KStr (py "ports"), PList None [PStr (py "Gi0/1")])];
          PDict None [(KStr (py "vlan_id"), PStr (py "20"))]].
Proof.
  refine (textfsm_zips_header ascii_lower [py "VLAN_ID"; py "Ports"]
            [[PStr (py "10"); PList None [PStr (py "Gi0/1")]]; [PStr (py "20")]] _ _).
  - compute_done.
  - repeat constructor.
Defined.

(** X9.  The pipeline of the command line: the records of a parse whose
    elements are strings, numbers or lists, under the key [parsed_sample]
    of a plain [dict], are always accepted by [ensure_yaml_standards]: the
    quoting pass quotes them all, the walk fails at the root and is passed
    over, no comment is changed, and the call ends as the writing of the
    file ends. *)
Theorem parse_then_write (lower : pystr -> pystr) (header : list pystr)
    (reslut : list (list pyval)) (objs : list pyval)
    (output_path : pystr) (w : world) :
  Forall (Forall (fun e => field_ok e = true)) reslut ->
  _textfsm_reslut_to_dict lower header reslut = Done objs ->
  let po := PDict None [(KStr (py "parsed_sample"), PList None (map wrap_record objs))] in
  Forall record_ok objs
  /\ ensure_yaml_standards
       (PDict None [(KStr (py "parsed_sample"), PList None objs)]) output_path w
     = (po, (write_yaml po output_path w).1, (write_yaml po output_path w).2).
Proof.
  intros Hok Hdone po.
  assert (Forall record_ok objs) as Hrec.
  { destruct (decide (Exists (fun row => (length header < length row)%nat) reslut))
      as [Hex|Hall].
    - rewrite (textfsm_long lower header reslut Hex) in Hdone. discriminate Hdone.
    - apply not_Exists_Forall in Hall; [|intros row; apply _].
      assert (Forall (fun row => (length row <= length header)%nat) reslut) as Hle.
      { eapply Forall_impl; [exact Hall|]. simpl. intros row. lia. }
      rewrite (textfsm_done lower header reslut Hle) in Hdone.
      injection Hdone as <-. by apply textfsm_records_ok. }
  split; [exact Hrec|].
  unfold ensure_yaml_standards. simpl.
  rewrite (quote_entries_records objs Hrec). simpl.
  destruct w as [σ oe de fs]. simpl. fold po.
  by destruct (write_yaml po output_path _).
Qed.

(** X9 at a parse of one row, written to a file that can be opened. *)
Lemma parse_then_write_witness :
  let po := PDict None
              [(KStr (py "parsed_sample"),
                 PList None
                   [PDict None
                      [(KStr (py "vlan_id"), PDQ (PStr (py "10")));
                       (KStr (py "ports"), PList None [PDQ (PStr (py "Gi0/1"))])]])] in
  ensure_yaml_standards
    (PDict None
       [(KStr (py "parsed_sample"),
          PList None
            [PDict None
               [(KStr (py "vlan_id"), PStr (py "10"));
                (KStr (py "ports"), PList None [PStr (py "Gi0/1")])]])])
    (py "out.yml") ex_world
  = (po,
     World ex_parsed_store (open_error ex_world) (dump_error ex_world)
       (<[py "out.yml" := Some (Dumped po ex_parsed_store)]> ∅),
     Returned).
Proof.
  refine (proj2 (parse_then_write ascii_lower [py "VLAN_ID"; py "Ports"]
                   [[PStr (py "10"); PList None [PStr (py "Gi0/1")]]]
                   [PDict None
                      [(KStr (py "vlan_id"), PStr (py "10"));
                       (KStr (py "ports"), PList None [PStr (py "Gi0/1")])]]
                   (py "out.yml") ex_world _ eq_refl)).
  repeat constructor.
Defined.

(** ** More on the names of the test files *)

Section MorePaths.

Lemma py_inj s s' : py s = py s' -> s = s'.
Proof.
  unfold py. intros H.
  rewrite <- (string_of_list_ascii_of_string s), <- (string_of_list_ascii_of_string s').
  f_equal. revert H. generalize (list_ascii_of_string s) (list_ascii_of_string s').
  induction l as [|a l IH]; intros [|a' l']; simpl; try done.
  intros [= Ha Hl]. f_equal; [|by apply IH].
  rewrite <- (ascii_N_embedding a), <- (ascii_N_embedding a'). by rewrite Ha.
Qed.

Lemma to_int_proper z : Z.to_int z <> Decimal.Pos Decimal.Nil /\ Z.to_int z <> Decimal.Neg Decimal.Nil.
Proof.
  destruct z as [|p|p]; simpl; split; try done; intros [= H];
    by apply DecimalPos.Unsigned.to_uint_nonnil in H.
Qed.

Lemma str_of_int_inj i j : str_of_int i = str_of_int j -> i = j.
Proof.
  unfold str_of_int. intros H%py_inj. apply DecimalZ.to_int_inj.
  destruct (to_int_proper i) as [Hi1 Hi2]. destruct (to_int_proper j) as [Hj1 Hj2].
  pose proof (NilZero.isi _ Hi1 Hi2) as Hi. pose proof (NilZero.isi _ Hj1 Hj2) as Hj.
  rewrite H in Hi. rewrite Hi in Hj. by injection Hj.
Qed.

Lemma str_of_int_nonempty i : str_of_int i <> [].
Proof.
  unfold str_of_int. destruct (to_int_proper i) as [H1 H2].
  destruct (Z.to_int i) as [d|d]; [|done]. simpl.
  destruct d; try done.
Qed.

(** The index as it is written at the end of the name of the raw file. *)
Lemma index_suffix_inj i j :
  (if (1 <? i)%Z then str_of_int i else [])
  = (if (1 <? j)%Z then str_of_int j else []) ->
  i = j \/ ((i <= 1)%Z /\ (j <= 1)%Z).
Proof.
  destruct (1 <? i)%Z eqn:Ei, (1 <? j)%Z eqn:Ej; intros H.
  - left. by apply str_of_int_inj.
  - by apply str_of_int_nonempty in H.
  - symmetry in H. by apply str_of_int_nonempty in H.
  - right. apply Z.ltb_ge in Ei, Ej. done.
Qed.

Lemma join_onto_inj path base x x' tail :
  base <> [] ->
  join_onto path (base ++ x ++ tail) = join_onto path (base ++ x' ++ tail) ->
  x = x'.
Proof.
  intros Hbase. unfold join_onto.
  rewrite !(startswith_sep_app base) by done.
  destruct (startswith_sep base);
    [|destruct (bool_decide (path = []) || endswith_sep path)]; intros H.
  - apply app_inv_head in H. by apply app_inv_tail in H.
  - apply app_inv_head, app_inv_head in H. by apply app_inv_tail in H.
  - apply app_inv_head in H. simpl in H. injection H as H.
    apply app_inv_head in H. by apply app_inv_tail in H.
Qed.

End MorePaths.

(** X10.  For one vendor and one command, the template file is the same
    for every index, and two indexes give the same raw file exactly when
    they are equal or both at most 1. *)
Theorem raw_files_by_index (module_vendor_os : option pystr)
    (vender_os command : pystr) (i j : Z) (raw_i raw_j template_i template_j : pystr) :
  get_test_files module_vendor_os vender_os command i = Ok (raw_i, template_i) ->
  get_test_files module_vendor_os vender_os command j = Ok (raw_j, template_j) ->
  template_i = template_j
  /\ (raw_i = raw_j <-> (i = j \/ ((i <= 1)%Z /\ (j <= 1)%Z))).
Proof.
  destruct module_vendor_os as [vendor|]; [|done]. unfold get_test_files, os_path_join.
  cbn [foldl]. intros [= <- <-] [= <- <-]. split; [done|]. split.
  - intros H. apply index_suffix_inj.
    eapply (join_onto_inj _ (vendor ++ py "_" ++ replace SP UNDERSCORE command) _ _
              (py ".raw")).
    { by destruct vendor. }
    destruct (1 <? i)%Z, (1 <? j)%Z; rewrite <- ?app_assoc in H |- *; simpl in *;
      rewrite ?app_nil_r; exact H.
  - intros [->|[Hi Hj]]; [done|].
    apply Z.ltb_ge in Hi, Hj. by rewrite Hi, Hj.
Qed.

(** X10 at the raw files of the indexes 2 and 3. *)
Lemma raw_files_by_index_witness :
  py "ntc_templates/templates/cisco_ios_show_version.textfsm"
  = py "ntc_templates/templates/cisco_ios_show_version.textfsm"
  /\ (py "tests/cisco_ios/show_version/cisco_ios_show_version2.raw"
      = py "tests/cisco_ios/show_version/cisco_ios_show_version3.raw"
      <-> (2 = 3 \/ (2 <= 1 /\ 3 <= 1))%Z).
Proof.
  exact (raw_files_by_index (Some (py "cisco_ios")) (py "x") (py "show version") 2 3
           _ _ _ _ eq_refl eq_refl).
Defined.

Section Directories.

Lemma rsplit_no_sep b : SLASH ∉ b -> rsplit_sep b = ([], b).
Proof.
  induction b as [|c b IH]; [done|].
  intros [Hne Hb]%not_elem_of_cons. simpl. rewrite (IH Hb).
  destruct (c =? SLASH) eqn:E; [apply N.eqb_eq in E; congruence|done].
Qed.

Lemma rsplit_last_sep d b :
  SLASH ∉ b -> rsplit_sep (d ++ SLASH :: b) = (d ++ [SLASH], b).
Proof.
  intros Hb. induction d as [|c d IH]; simpl.
  - by rewrite (rsplit_no_sep b Hb).
  - rewrite IH. by destruct d.
Qed.

Lemma endswith_last d : d <> [] -> endswith_sep d = false ->
  exists d' c, d = d' ++ [c] /\ c <> SLASH.
Proof.
  unfold endswith_sep. intros Hd He. destruct (last d) as [c|] eqn:E.
  - apply last_Some in E as [d' ->]. exists d', c. split; [done|].
    by apply N.eqb_neq.
  - by apply last_None in E.
Qed.

Lemma dirname_join d b :
  d <> [] -> endswith_sep d = false -> SLASH ∉ b ->
  os_path_dirname (d ++ SLASH :: b) = d /\ os_path_basename (d ++ SLASH :: b) = b.
Proof.
  intros Hd He Hb. unfold os_path_dirname, os_path_basename.
  rewrite (rsplit_last_sep d b Hb). cbn [fst snd]. split; [|done].
  destruct (endswith_last d Hd He) as (d' & c & -> & Hc).
  apply N.eqb_neq in Hc.
  rewrite bool_decide_eq_false_2 by by destruct d'.
  rewrite !forallb_app. simpl. rewrite Hc. rewrite andb_false_r. simpl.
  unfold rstrip_sep. rewrite !rev_app_distr. simpl. rewrite Hc.
  simpl. by rewrite rev_involutive.
Qed.

Lemma no_sep_plain s : s <> [] -> SLASH ∉ s -> startswith_sep s = false /\ endswith_sep s = false.
Proof.
  intros Hs Hno. split.
  - destruct s as [|c s]; [done|]. simpl. apply N.eqb_neq. intros ->.
    apply Hno, list_elem_of_here.
  - unfold endswith_sep. destruct (last s) as [c|] eqn:E; [|done].
    apply N.eqb_neq. intros ->. apply Hno. by apply last_Some_elem_of.
Qed.

Lemma replace_no_sep c : SLASH ∉ c -> SLASH ∉ replace SP UNDERSCORE c.
Proof.
  induction c as [|x c IH]; [done|]. intros [Hx Hc]%not_elem_of_cons. simpl.
  apply not_elem_of_cons. split; [|by apply IH]. by destruct (x =? SP).
Qed.

Lemma digits_no_sep d : SLASH ∉ py (NilEmpty.string_of_uint d).
Proof.
  induction d; simpl; try (apply not_elem_of_cons; split; [done|exact IHd]).
  apply not_elem_of_nil.
Qed.

Lemma str_of_int_no_sep i : SLASH ∉ str_of_int i.
Proof.
  unfold str_of_int. destruct (Z.to_int i) as [d|d]; simpl.
  - destruct d; try apply (digits_no_sep (_ d)). compute_done.
  - apply not_elem_of_cons. split; [done|].
    destruct d; try apply (digits_no_sep (_ d)). compute_done.
Qed.

(** The two paths for a vendor and a command without separator. *)
Lemma test_files_split (vendor vender_os command : pystr) (index : Z) :
  vendor <> [] -> command <> [] -> SLASH ∉ vendor -> SLASH ∉ command ->
  get_test_files (Some vendor) vender_os command index
  = Ok ((py "tests/" ++ vendor ++ py "/" ++ replace SP UNDERSCORE command)
          ++ SLASH :: (vendor ++ py "_" ++ replace SP UNDERSCORE command
                         ++ (if (1 <? index)%Z then str_of_int index else [])
                         ++ py ".raw"),
        py "ntc_templates/templates"
          ++ SLASH :: (vendor ++ py "_" ++ replace SP UNDERSCORE command
                         ++ py ".textfsm")).
Proof.
  intros Hv Hc Hvs Hcs.
  destruct (no_sep_plain vendor Hv Hvs) as [Hv1 Hv2].
  set (cmd := replace SP UNDERSCORE command).
  assert (cmd <> []) as Hcmd by (intros H; by apply replace_nil in H).
  destruct (no_sep_plain cmd Hcmd (replace_no_sep command Hcs)) as [Hc1 Hc2].
  unfold get_test_files, os_path_join. fold cmd. cbn [foldl]. f_equal. f_equal.
  - rewrite (join_step (py "tests") vendor) by done.
    rewrite (join_step _ cmd); [| by destruct vendor | | done].
    2:{ rewrite !endswith_sep_app; done. }
    rewrite join_step.
    + destruct (1 <? index)%Z; by app_norm.
    + done.
    + rewrite !endswith_sep_app; done.
    + destruct (1 <? index)%Z; rewrite <- ?app_assoc; by rewrite startswith_sep_app.
  - rewrite (join_step (py "ntc_templates") (py "templates")) by done.
    rewrite join_step; [by app_norm|done|done|].
    rewrite <- ?app_assoc; by rewrite startswith_sep_app.
Qed.

End Directories.

(** X11.  For a vendor and a command that are not empty and hold no slash,
    the directory of the raw file, which [generate_file] makes and the
    command line lists, is [tests/{vendor}/{command}], and the name that
    [print_index_file_command] prints is the template file without its
    directory, [{vendor}_{command}.textfsm]; [{command}] has its spaces
    replaced by underscores. *)
Theorem test_file_directories (vendor vender_os command raw_file template_file : pystr)
    (index : Z) :
  vendor <> [] -> command <> [] -> SLASH ∉ vendor -> SLASH ∉ command ->
  get_test_files (Some vendor) vender_os command index = Ok (raw_file, template_file) ->
  os_path_dirname raw_file
  = py "tests/" ++ vendor ++ py "/" ++ replace SP UNDERSCORE command
  /\ os_path_basename raw_file
     = vendor ++ py "_" ++ replace SP UNDERSCORE command
         ++ (if (1 <? index)%Z then str_of_int index else []) ++ py ".raw"
  /\ os_path_dirname template_file = py "ntc_templates/templates"
  /\ os_path_basename template_file
     = vendor ++ py "_" ++ replace SP UNDERSCORE command ++ py ".textfsm".
Proof.
  intros Hv Hc Hvs Hcs Hget.
  pose proof (test_files_split vendor vender_os command index Hv Hc Hvs Hcs) as Hsplit.
  rewrite Hget in Hsplit. injection Hsplit as -> ->.
  assert (SLASH ∉ vendor ++ py "_" ++ replace SP UNDERSCORE command) as Hbase.
  { rewrite !not_elem_of_app. repeat split; [done|compute_done|by apply replace_no_sep]. }
  assert (replace SP UNDERSCORE command <> []) as Hcmd
    by (intros H; by apply replace_nil in H).
  destruct (no_sep_plain _ Hcmd (replace_no_sep command Hcs)) as [_ Hc2].
  destruct (dirname_join (py "tests/" ++ vendor ++ py "/" ++ replace SP UNDERSCORE command)
              (vendor ++ py "_" ++ replace SP UNDERSCORE command
                 ++ (if (1 <? index)%Z then str_of_int index else []) ++ py ".raw"))
    as [Hd Hb].
  { done. }
  { rewrite !endswith_sep_app; try done; by destruct vendor. }
  { rewrite !app_assoc. rewrite not_elem_of_app. split; [|compute_done].
    rewrite not_elem_of_app. rewrite <- !app_assoc. split; [exact Hbase|].
    destruct (1 <? index)%Z; [apply str_of_int_no_sep|apply not_elem_of_nil]. }
  destruct (dirname_join (py "ntc_templates/templates")
              (vendor ++ py "_" ++ replace SP UNDERSCORE command ++ py ".textfsm"))
    as [Hd' Hb'].
  { done. }
  { done. }
  { rewrite !app_assoc. rewrite not_elem_of_app. split; [|compute_done].
    rewrite <- !app_assoc. exact Hbase. }
  done.
Qed.

(** X11 at a vendor and a command of two words. *)
Lemma test_file_directories_witness :
  os_path_dirname (py "tests/cisco_ios/show_version/cisco_ios_show_version2.raw")
  = py "tests/cisco_ios/show_version"
  /\ os_path_basename (py "ntc_templates/templates/cisco_ios_show_version.textfsm")
     = py "cisco_ios_show_version.textfsm".
Proof.
  destruct (test_file_directories (py "cisco_ios") (py "x") (py "show version")
              _ _ 2 ltac:(discriminate) ltac:(discriminate)
              ltac:(compute_done) ltac:(compute_done) eq_refl)
    as (H1 & _ & _ & H4).
  split; [exact H1|exact H4].
Defined.

(** ** The making of the test files *)

Lemma ex_write_exists (p : pystr) (fs fs' : gset pystr) :
  ex_write_empty p fs = (fs', Returned) -> ex_exists fs' p = true.
Proof.
  unfold ex_write_empty, ex_exists. case_bool_decide; [|done].
  intros [= <-]. apply bool_decide_eq_true. set_solver.
Qed.

Lemma ex_write_keeps (p : pystr) (fs fs' : gset pystr) (o : outcome) (q : pystr) :
  ex_write_empty p fs = (fs', o) -> ex_exists fs q = true -> ex_exists fs' q = true.
Proof.
  unfold ex_write_empty, ex_exists. case_bool_decide; intros [= <- <-]; [|done].
  intros Hq%bool_decide_eq_true. apply bool_decide_eq_true. set_solver.
Qed.

Section GenerateFile.
Context {FS : Type}.
Variable path_exists : FS -> pystr -> bool.
Variable mkdir : pystr -> FS -> FS * outcome.
Variable write_empty : pystr -> FS -> FS * outcome.

(** What is asked of the file system: a file that was written exists, and
    writing a file makes no path disappear. *)
Hypothesis write_exists :
  forall p fs fs', write_empty p fs = (fs', Returned) -> path_exists fs' p = true.
Hypothesis write_keeps :
  forall p fs fs' o q,
    write_empty p fs = (fs', o) -> path_exists fs q = true -> path_exists fs' q = true.

(** X12.  When [generate_file] returns, the raw file and the template file
    both exist, and a second call changes nothing: a file that exists is
    never written again. *)
Theorem generate_file_settles (module_vendor_os : option pystr)
    (vendor_os command raw_file template_file : pystr) (index : Z) (fs fs' : FS) :
  get_test_files module_vendor_os vendor_os command index = Ok (raw_file, template_file) ->
  generate_file path_exists mkdir write_empty module_vendor_os vendor_os command index fs
  = (fs', Returned) ->
  path_exists fs' raw_file = true
  /\ path_exists fs' template_file = true
  /\ generate_file path_exists mkdir write_empty module_vendor_os vendor_os command index fs'
     = (fs', Returned).
Proof.
  intros Hget. unfold generate_file. rewrite Hget. intros Hrun.
  assert (path_exists fs' raw_file = true /\ path_exists fs' template_file = true)
    as [Hraw Htemplate].
  { destruct (path_exists fs raw_file) eqn:Eraw.
    - destruct (path_exists fs template_file) eqn:Etemplate.
      + by injection Hrun as <-.
      + split; [by eapply write_keeps|by eapply write_exists].
    - destruct (if path_exists fs (os_path_dirname raw_file) then (fs, Returned)
                else mkdir (os_path_dirname raw_file) fs) as [fs1 [|e]]; [|done].
      destruct (write_empty raw_file fs1) as [fs2 [|e]] eqn:Ewrite; [|done].
      pose proof (write_exists _ _ _ Ewrite) as Hraw2.
      destruct (path_exists fs2 template_file) eqn:Etemplate.
      + by injection Hrun as <-.
      + split; [by eapply write_keeps|by eapply write_exists]. }
  by rewrite Hraw, Htemplate.
Qed.

End GenerateFile.

(** X12 in a file system where [tests/cisco_ios] exists and the directory
    of the command does not. *)
Lemma generate_file_settles_witness :
  let run := generate_file ex_exists ex_mkdir ex_write_empty (Some (py "cisco_ios"))
               (py "cisco_ios") (py "show version") 2 in
  ex_exists (run ex_fs).1 (py "tests/cisco_ios/show_version/cisco_ios_show_version2.raw")
  = true
  /\ ex_exists (run ex_fs).1 (py "ntc_templates/templates/cisco_ios_show_version.textfsm")
     = true
  /\ run (run ex_fs).1 = ((run ex_fs).1, Returned).
Proof.
  intros run.
  refine (generate_file_settles ex_exists ex_mkdir ex_write_empty
            ex_write_exists ex_write_keeps (Some (py "cisco_ios")) (py "cisco_ios")
            (py "show version") _ _ 2 ex_fs (run ex_fs).1 eq_refl _).
  vm_compute. reflexivity.
Defined.
(** ** The substitution of blanks: one line *)

Section BlankLine.

Lemma startswith_app p s : startswith p (p ++ s) = true.
Proof. induction p as [|c p IH]; simpl; [done|]. by rewrite N.eqb_refl. Qed.

Lemma startswith_inv p s : startswith p s = true -> exists t, s = p ++ t.
Proof.
  revert s. induction p as [|c p IH]; intros s H; simpl in *.
  - by exists s.
  - destruct s as [|d s]; [done|]. apply andb_true_iff in H as [Hc H].
    apply N.eqb_eq in Hc as ->. destruct (IH _ H) as [t ->]. by exists t.
Qed.

Lemma match_star_any s : no_nl s = true -> ReEnd.match_to_end [Re.Star Re.Any] s = Some s.
Proof.
  induction s as [|c s IH]; intros H; [done|].
  simpl in H. apply andb_true_iff in H as [Hc H].
  simpl in *. unfold not_nl in Hc. rewrite Hc. by rewrite (IH H).
Qed.

Lemma match_literals p s :
  no_nl s = true ->
  ReEnd.match_to_end (map (fun c => Re.One (Re.Lit c)) p ++ [Re.Star Re.Any]) s
  = if startswith p s then Some s else None.
Proof.
  revert s. induction p as [|d p IH]; intros s H.
  - by apply match_star_any.
  - destruct s as [|c s]; [done|].
    simpl in H. apply andb_true_iff in H as [_ H].
    cbn [map app ReEnd.match_to_end Re.cls_matches startswith].
    destruct (c =? d); [|done]. rewrite (IH _ H). simpl. by destruct (startswith p s).
Qed.

Lemma search_action s : no_nl s = true -> ReEnd.search RE_ACTION s = action_of s.
Proof.
  induction s as [|c s IH]; intros H; [done|].
  pose proof (match_literals (py " -> ") (c :: s) H) as Hm.
  change (map _ (py " -> ") ++ _) with RE_ACTION in Hm.
  cbn [ReEnd.search action_of]. rewrite Hm.
  destruct (startswith (py " -> ") (c :: s)); [done|].
  simpl in H. apply andb_true_iff in H as [_ H]. by apply IH.
Qed.

Lemma action_of_Some s e :
  action_of s = Some e -> startswith (py " -> ") e = true /\ exists h, s = h ++ e.
Proof.
  induction s as [|c s IH]; [done|]. cbn [action_of].
  destruct (startswith (py " -> ") (c :: s)) eqn:E.
  - intros [= <-]. split; [done|]. by exists [].
  - intros H. destruct (IH H) as [? [h ->]]. split; [done|]. by exists (c :: h).
Qed.

Lemma action_of_here e : startswith (py " -> ") e = true -> action_of e = Some e.
Proof. intros H. destruct e; [done|]. cbn [action_of]. by rewrite H. Qed.

Lemma action_of_skip h e : no_space h = true -> action_of (h ++ e) = action_of e.
Proof.
  induction h as [|c h IH]; intros H; [done|].
  simpl in H. apply andb_true_iff in H as [Hc H].
  cbn [app action_of]. rewrite (IH H).
  assert (startswith (py " -> ") (c :: h ++ e) = false) as ->; [|done].
  change (startswith (py " -> ") (c :: h ++ e))
    with ((c =? SP) && startswith (py "-> ") (h ++ e)).
  destruct (N.eqb_spec c SP) as [->|]; done.
Qed.

Lemma words_no_space s : Forall (fun w => no_space w = true) (words s).
Proof.
  induction s as [|c s IH]; [constructor|]. cbn [words].
  destruct (is_space c) eqn:Ec; [done|].
  assert (no_space [c] = true) as H1 by (simpl; by rewrite Ec).
  destruct s as [|d s]; [by repeat constructor|].
  destruct (is_space d); [by constructor|].
  destruct (words (d :: s)) as [|w ws]; [by repeat constructor|].
  inversion IH; subst. constructor; [|done]. simpl. by rewrite Ec.
Qed.

Lemma words_plain s : s <> [] -> no_space s = true -> words s = [s].
Proof.
  induction s as [|c s IH]; [done|]. intros _ H.
  simpl in H. apply andb_true_iff in H as [Hc H].
  apply negb_true_iff in Hc. cbn [words]. rewrite Hc.
  destruct s as [|d s]; [done|].
  pose proof H as H'. simpl in H'. apply andb_true_iff in H' as [Hd _].
  apply negb_true_iff in Hd. rewrite Hd. by rewrite IH.
Qed.

Lemma words_head c s :
  is_space c = false -> exists w ws, words (c :: s) = (c :: w) :: ws.
Proof.
  intros Hc. cbn [words]. rewrite Hc.
  destruct s as [|d s]; [by exists [], []|].
  destruct (is_space d); [by eexists [], _|].
  destruct (words (d :: s)) as [|w ws]; [by exists [], []|by exists w, ws].
Qed.

Lemma join_head sep c w ws : exists t, join sep ((c :: w) :: ws) = c :: t.
Proof. destruct ws; simpl; by eexists. Qed.

Lemma replace_char c new s :
  str_replace [c] new s = concat (map (fun x => if x =? c then new else [x]) s).
Proof.
  unfold str_replace. induction s as [|x s IH]; [done|].
  cbn [replace_from startswith map concat length Nat.sub]. rewrite andb_true_r, IH.
  by destruct (x =? c).
Qed.

Lemma replace_no_space new w :
  no_space w = true ->
  concat (map (fun x => if x =? SP then new else [x]) w) = w.
Proof.
  induction w as [|x w IH]; intros H; [done|].
  simpl in H. apply andb_true_iff in H as [Hx H]. simpl. rewrite (IH H).
  destruct (x =? SP) eqn:E; [|done]. apply N.eqb_eq in E as ->. done.
Qed.

Lemma join_replace new ws :
  Forall (fun w => no_space w = true) ws ->
  str_replace [SP] new (join [SP] ws) = join new ws.
Proof.
  rewrite replace_char. induction 1 as [|w ws Hw Hws IH]; [done|].
  destruct ws as [|w' ws].
  - simpl. by apply replace_no_space.
  - change (join [SP] (w :: w' :: ws)) with (w ++ [SP] ++ join [SP] (w' :: ws)).
    change (join new (w :: w' :: ws)) with (w ++ new ++ join new (w' :: ws)).
    rewrite !map_app, !concat_app, IH, (replace_no_space _ _ Hw).
    simpl. by rewrite app_nil_r.
Qed.

Lemma no_space_app a b : no_space (a ++ b) = no_space a && no_space b.
Proof. apply forallb_app. Qed.

Lemma join_no_space new ws :
  no_space new = true -> Forall (fun w => no_space w = true) ws ->
  no_space (join new ws) = true.
Proof.
  intros Hn. induction 1 as [|w ws Hw Hws IH]; [done|].
  destruct ws as [|w' ws]; [done|].
  change (join new (w :: w' :: ws)) with (w ++ new ++ join new (w' :: ws)).
  by rewrite !no_space_app, Hw, Hn, IH.
Qed.

Lemma no_space_no_nl s : no_space s = true -> no_nl s = true.
Proof.
  induction s as [|c s IH]; [done|]. simpl. intros H.
  apply andb_true_iff in H as [Hc H]. rewrite (IH H), andb_true_r.
  unfold not_nl. destruct (c =? NL) eqn:E; [|done].
  apply N.eqb_eq in E as ->. done.
Qed.

Lemma break_is_space c : is_linebreak c = true -> is_space c = true.
Proof.
  unfold is_linebreak, is_space. intros H.
  repeat (apply orb_true_iff in H as [H|H]);
    repeat (apply andb_true_iff in H as [? ?]);
    repeat match goal with
           | H : (_ <=? _) = true |- _ => apply N.leb_le in H
           | H : (_ =? _) = true |- _ => apply N.eqb_eq in H
           end;
    repeat match goal with
           | |- context [?a <=? ?b] => destruct (N.leb_spec a b)
           | |- context [?a =? ?b] => destruct (N.eqb_spec a b)
           end; simpl; try done; lia.
Qed.

Lemma no_space_no_break s : no_space s = true -> no_break s = true.
Proof.
  induction s as [|c s IH]; [done|]. simpl. intros H.
  apply andb_true_iff in H as [Hc H]. rewrite (IH H), andb_true_r.
  destruct (is_linebreak c) eqn:E; [|done].
  apply break_is_space in E. by rewrite E in Hc.
Qed.

Lemma no_break_no_nl s : no_break s = true -> no_nl s = true.
Proof.
  induction s as [|c s IH]; [done|]. simpl. intros H.
  apply andb_true_iff in H as [Hc H]. rewrite (IH H), andb_true_r.
  unfold not_nl. destruct (c =? NL) eqn:E; [|done].
  apply N.eqb_eq in E as ->. done.
Qed.

(** A line that begins a rule, cut into its pattern and its action. *)
Lemma rule_line_split line :
  startswith (py "  ^") line = true ->
  exists h e, line = py "  " ++ (CARET :: h) ++ e
    /\ (action_of ((CARET :: h) ++ e) = Some e
        \/ e = [] /\ action_of (CARET :: h) = None).
Proof.
  intros H. apply startswith_inv in H as [t ->].
  destruct (action_of (CARET :: t)) as [e|] eqn:E.
  - destruct (action_of_Some _ _ E) as [He [h Hh]].
    destruct h as [|c h].
    + simpl in Hh. subst e. done.
    + injection Hh as <- ->. exists h, e. split; [done|]. by left.
  - exists t, []. rewrite app_nil_r. split; [done|]. by right.
Qed.

(** What the loop body makes of a rule. *)
Lemma blank_sub_rule h e :
  no_nl (h ++ e) = true ->
  action_of ((CARET :: h) ++ e) = Some e \/ e = [] /\ action_of (CARET :: h) = None ->
  blank_sub_line (py "  " ++ (CARET :: h) ++ e)
  = py "  " ++ join (py "\s+") (words (CARET :: h)) ++ e.
Proof.
  intros Hnl Hact. unfold blank_sub_line.
  change (startswith (py "  ^") (py "  " ++ (CARET :: h) ++ e)) with true.
  cbn [negb]. change (drop 2 (py "  " ++ (CARET :: h) ++ e)) with ((CARET :: h) ++ e).
  rewrite search_action by done.
  destruct Hact as [Hact|[-> Hact]].
  - rewrite Hact. destruct (action_of_Some _ _ Hact) as [He _].
    assert (drop_last (length e) ((CARET :: h) ++ e) = CARET :: h) as ->.
    { destruct e as [|c e]; [done|]. unfold drop_last. cbn [length].
      rewrite length_app. cbn [length].
      replace (S (length h) + S (length e) - S (length e))%nat with (length (CARET :: h))
        by (simpl; lia).
      by rewrite take_app_length. }
    by rewrite join_replace by apply words_no_space.
  - rewrite app_nil_r, Hact.
    by rewrite join_replace by apply words_no_space.
Qed.

Lemma blank_sub_other line :
  startswith (py "  ^") line = false -> blank_sub_line line = line.
Proof. intros H. unfold blank_sub_line. by rewrite H. Qed.

Lemma pattern_joined h :
  exists t, join (py "\s+") (words (CARET :: h)) = CARET :: t
    /\ no_space (CARET :: t) = true.
Proof.
  destruct (words_head CARET h) as (w & ws & Hw); [done|].
  destruct (join_head (py "\s+") CARET w ws) as [t Ht].
  exists t. rewrite Hw. split; [done|]. rewrite <- Ht, <- Hw.
  apply join_no_space; [done|apply words_no_space].
Qed.

Lemma blank_sub_line_fixed line :
  no_nl line = true -> blank_sub_line (blank_sub_line line) = blank_sub_line line.
Proof.
  intros Hnl. destruct (startswith (py "  ^") line) eqn:E.
  2:{ by rewrite !(blank_sub_other line E). }
  destruct (rule_line_split _ E) as (h & e & -> & Hact).
  assert (no_nl (h ++ e) = true) as Hnl' by done.
  rewrite (blank_sub_rule h e Hnl' Hact).
  destruct (pattern_joined h) as (t & Ht & Hs). rewrite Ht.
  assert (no_nl e = true) as He.
  { unfold no_nl in *. rewrite forallb_app in Hnl'. by apply andb_true_iff in Hnl' as [_ ?]. }
  assert (no_space t = true) as Hs' by done.
  rewrite (blank_sub_rule t e).
  - by rewrite (words_plain (CARET :: t)).
  - unfold no_nl. rewrite forallb_app. apply andb_true_iff. split; [|done].
    by apply no_space_no_nl.
  - destruct Hact as [Hact|[-> Hact]].
    + left. destruct (action_of_Some _ _ Hact) as [Hst _].
      rewrite (action_of_skip (CARET :: t)) by done. by apply action_of_here.
    + right. split; [done|].
      pose proof (action_of_skip (CARET :: t) [] Hs) as Hk.
      by rewrite app_nil_r in Hk.
Qed.

End BlankLine.

(** X13. In a line that begins with two spaces and a circumflex and holds no
    newline, [reg_blank_sub] keeps the two spaces, replaces every run of
    whitespace of the pattern by the three characters backslash, s, plus
    (dropping whitespace at its end), and keeps the action, the rest of the
    line from the first arrow [ -> ] on, character for character. *)
Theorem rule_line_rewritten (h e : pystr)
    (Hnl : no_nl (h ++ e) = true)
    (Hact : action_of ((CARET :: h) ++ e) = Some e
            \/ e = [] /\ action_of (CARET :: h) = None) :
  blank_sub_line (py "  " ++ (CARET :: h) ++ e)
  = py "  " ++ join (py "\s+") (words (CARET :: h)) ++ e
  /\ no_space (join (py "\s+") (words (CARET :: h))) = true.
Proof.
  split; [by apply blank_sub_rule|].
  apply join_no_space; [done|apply words_no_space].
Qed.

Lemma rule_line_rewritten_witness :
  blank_sub_line (py "  ^Interface   (\S+)  is up  -> Record")
  = py "  ^Interface\s+(\S+)\s+is\s+up -> Record".
Proof.
  refine (proj1 (rule_line_rewritten (py "Interface   (\S+)  is up ") (py " -> Record") _ _)).
  - reflexivity.
  - left. reflexivity.
Defined.

(** X14. On a line without a newline the rewriting of [reg_blank_sub] is
    idempotent: a line it has rewritten is left as it is by a second
    pass, and so is every line that is not a rule. *)
Theorem blank_sub_line_idempotent (line : pystr) (Hnl : no_nl line = true) :
  blank_sub_line (blank_sub_line line) = blank_sub_line line
  /\ (startswith (py "  ^") line = false -> blank_sub_line line = line).
Proof. split; [by apply blank_sub_line_fixed|apply blank_sub_other]. Qed.

Lemma blank_sub_line_idempotent_witness :
  blank_sub_line (blank_sub_line (py "  ^a  b -> Next  x"))
  = blank_sub_line (py "  ^a  b -> Next  x").
Proof. apply (blank_sub_line_idempotent (py "  ^a  b -> Next  x")). reflexivity. Defined.
(** ** The substitution of blanks: the whole text *)

Section BlankText.

Lemma segments_not_nil b s : segments b s <> [].
Proof.
  revert b. induction s as [|c s IH]; intros b; [done|]. cbn [segments].
  destruct (b && (c =? NL)); [apply IH|].
  destruct (is_linebreak c); [done|].
  by destruct (segments false s).
Qed.

Lemma segments_no_break b s : Forall (fun l => no_break l = true) (segments b s).
Proof.
  revert b. induction s as [|c s IH]; intros b; [by repeat constructor|].
  cbn [segments]. destruct (b && (c =? NL)); [apply IH|].
  destruct (is_linebreak c) eqn:E; [constructor; [done|apply IH]|].
  pose proof (IH false) as H. destruct (segments false s) as [|l ls].
  - repeat constructor. simpl. by rewrite E.
  - inversion H; subst. constructor; [|done]. simpl. by rewrite E.
Qed.

Lemma splitlines_no_break s : Forall (fun l => no_break l = true) (splitlines s).
Proof.
  unfold splitlines. pose proof (segments_no_break false s) as H.
  destruct (last (segments false s)) as [[|]|]; try done.
  by apply Forall_take.
Qed.

Lemma segments_line l rest :
  no_break l = true ->
  segments false (l ++ NL :: rest) = l :: segments false rest.
Proof.
  induction l as [|c l IH]; intros H; [done|].
  simpl in H. apply andb_true_iff in H as [Hc H]. apply negb_true_iff in Hc.
  cbn [app segments andb]. by rewrite Hc, (IH H).
Qed.

Lemma segments_last_line l : no_break l = true -> segments false l = [l].
Proof.
  induction l as [|c l IH]; intros H; [done|].
  simpl in H. apply andb_true_iff in H as [Hc H]. apply negb_true_iff in Hc.
  cbn [segments andb]. by rewrite Hc, (IH H).
Qed.

Lemma segments_join ls :
  ls <> [] -> Forall (fun l => no_break l = true) ls ->
  segments false (join [NL] ls) = ls.
Proof.
  intros Hne H. induction H as [|l ls Hl Hls IH]; [done|].
  destruct ls as [|l' ls].
  - by apply segments_last_line.
  - change (join [NL] (l :: l' :: ls)) with (l ++ NL :: join [NL] (l' :: ls)).
    rewrite segments_line by done. by rewrite IH.
Qed.

Lemma splitlines_join ls :
  Forall (fun l => no_break l = true) ls -> last ls <> Some [] ->
  splitlines (join [NL] ls) = ls.
Proof.
  intros H Hlast. destruct (decide (ls = [])) as [->|Hne]; [done|].
  unfold splitlines. rewrite segments_join by done.
  by destruct (last ls) as [[|]|].
Qed.

Lemma last_join sep l ls x :
  last (l :: ls) = Some x -> x <> [] -> last (join sep (l :: ls)) = last x.
Proof.
  revert l. induction ls as [|l' ls IH]; intros l H Hx.
  - by injection H as ->.
  - change (join sep (l :: l' :: ls)) with (l ++ sep ++ join sep (l' :: ls)).
    assert (join sep (l' :: ls) <> []) as Hne.
    { intros E. specialize (IH l' H Hx). rewrite E in IH.
      apply last_is_Some in Hx as [y Hy]. rewrite Hy in IH. done. }
    rewrite !last_app. rewrite (IH l' H Hx).
    apply last_is_Some in Hx as [y Hy]. by rewrite Hy.
Qed.

Lemma blank_sub_no_break line :
  no_break line = true -> no_break (blank_sub_line line) = true.
Proof.
  intros H. destruct (startswith (py "  ^") line) eqn:E.
  2:{ by rewrite (blank_sub_other line E). }
  destruct (rule_line_split _ E) as (h & e & -> & Hact).
  assert (no_break (h ++ e) = true) as Hb by done.
  rewrite blank_sub_rule by (done || by apply no_break_no_nl).
  unfold no_break in *. rewrite forallb_app in Hb. apply andb_true_iff in Hb as [_ He].
  rewrite !forallb_app, He, andb_true_r. apply andb_true_iff. split; [done|].
  apply no_space_no_break, join_no_space; [done|apply words_no_space].
Qed.

Lemma blank_sub_not_nil line : line <> [] -> blank_sub_line line <> [].
Proof.
  intros Hne. destruct (startswith (py "  ^") line) eqn:E.
  - unfold blank_sub_line. by rewrite E.
  - by rewrite (blank_sub_other line E).
Qed.

(** The lines of the written text. *)
Lemma blank_sub_lines text :
  last (splitlines text) <> Some [] ->
  splitlines (blank_sub_text text) = map blank_sub_line (splitlines text).
Proof.
  intros Hlast. unfold blank_sub_text. apply splitlines_join.
  - apply Forall_map. eapply Forall_impl; [apply splitlines_no_break|].
    intros l. apply blank_sub_no_break.
  - change (map blank_sub_line (splitlines text)) with (blank_sub_line <$> splitlines text).
    rewrite fmap_last. destruct (last (splitlines text)) as [x|]; [|done].
    simpl. intros [= E]. apply Hlast. f_equal.
    destruct (decide (x = [])) as [|Hx]; [done|]. by apply blank_sub_not_nil in Hx.
Qed.

Lemma last_no_break s c : no_break s = true -> last s = Some c -> is_linebreak c = false.
Proof.
  intros H Hl. apply last_Some in Hl as [s' ->].
  unfold no_break in H. rewrite forallb_app in H. apply andb_true_iff in H as [_ H].
  simpl in H. rewrite andb_true_r in H. by apply negb_true_iff in H.
Qed.

Lemma blank_sub_text_end text c :
  last (splitlines text) <> Some [] ->
  last (blank_sub_text text) = Some c -> is_linebreak c = false.
Proof.
  intros Hlast. unfold blank_sub_text.
  pose proof (splitlines_no_break text) as Hb.
  destruct (splitlines text) as [|l ls] eqn:E; [done|].
  change (map blank_sub_line (l :: ls)) with (blank_sub_line l :: map blank_sub_line ls).
  destruct (last (l :: ls)) as [x|] eqn:Ex.
  2:{ by apply last_None in Ex. }
  assert (x <> []) as Hx by (intros ->; done).
  assert (no_break x = true) as Hbx.
  { eapply Forall_forall in Hb; [apply Hb|]. by eapply last_Some_elem_of. }
  rewrite (last_join _ _ _ (blank_sub_line x)).
  - apply last_no_break. by apply blank_sub_no_break.
  - change (blank_sub_line l :: map blank_sub_line ls) with (blank_sub_line <$> l :: ls).
    by rewrite fmap_last, Ex.
  - by apply blank_sub_not_nil.
Qed.

End BlankText.

(** X15. When the file can be read and its last line is not empty,
    [reg_blank_sub] ends as the writing of the new text ends; the new text
    has as many lines as the old one, each the rewriting of the line at its
    place, and it does not end in a line break: the newline that ended the
    file is not written back. *)
Theorem reg_blank_sub_lines {FS : Type}
    (read_text : pystr -> FS -> result pystr)
    (write_text : pystr -> pystr -> FS -> FS * outcome)
    (file text : pystr) (fs : FS)
    (Hread : read_text file fs = Ok text)
    (Hlast : last (splitlines text) <> Some []) :
  exists out,
    reg_blank_sub read_text write_text file fs = write_text file out fs
    /\ splitlines out = map blank_sub_line (splitlines text)
    /\ (forall c, last out = Some c -> is_linebreak c = false).
Proof.
  exists (blank_sub_text text). split; [|split].
  - unfold reg_blank_sub. by rewrite Hread.
  - by apply blank_sub_lines.
  - intros c. by apply blank_sub_text_end.
Qed.

Lemma reg_blank_sub_lines_witness :
  exists out,
    reg_blank_sub ex_read_text ex_write_text ex_template ex_templates
    = ex_write_text ex_template out ex_templates
    /\ splitlines out = map blank_sub_line (splitlines ex_template_text)
    /\ (forall c, last out = Some c -> is_linebreak c = false).
Proof.
  apply (reg_blank_sub_lines ex_read_text ex_write_text ex_template ex_template_text
           ex_templates).
  - vm_compute. reflexivity.
  - vm_compute. discriminate.
Defined.

(** X16. On a text whose last line is not empty the substitution of blanks
    is idempotent: what [reg_blank_sub] writes is what it would write
    again for the file it has written. *)
Theorem blank_sub_text_idempotent (text : pystr)
    (Hlast : last (splitlines text) <> Some []) :
  blank_sub_text (blank_sub_text text) = blank_sub_text text.
Proof.
  unfold blank_sub_text at 1. rewrite blank_sub_lines by done.
  unfold blank_sub_text. f_equal. rewrite map_map.
  apply map_ext_Forall. eapply Forall_impl; [apply splitlines_no_break|].
  intros l Hl. simpl. by apply blank_sub_line_fixed, no_break_no_nl.
Qed.

Lemma blank_sub_text_idempotent_witness :
  blank_sub_text (blank_sub_text ex_template_text) = blank_sub_text ex_template_text.
Proof. apply (blank_sub_text_idempotent ex_template_text). vm_compute. discriminate. Defined.
(** ** The entry for the index file *)

Section IndexEntry.



Lemma replace_skip old new pre s :
  replace_from old new (length pre) (pre ++ s) = replace_from old new 0 s.
Proof.
  induction pre as [|c pre IH]; [done|]. cbn [length app replace_from]. exact IH.
Qed.

Lemma replace_absent old new s :
  occurs old s = false -> replace_from old new 0 s = s.
Proof.
  induction s as [|c s IH]; [done|]. cbn [occurs replace_from].
  intros H. apply orb_false_iff in H as [H1 H2]. by rewrite H1, (IH H2).
Qed.

Lemma replace_prefix old new rest :
  old <> [] -> occurs old rest = false ->
  str_replace old new (old ++ rest) = new ++ rest.
Proof.
  intros Hne Hocc. destruct old as [|c old]; [done|].
  unfold str_replace. cbn [app replace_from].
  change (c :: old ++ rest) with ((c :: old) ++ rest). rewrite startswith_app.
  cbn [length Nat.sub]. rewrite Nat.sub_0_r, replace_skip.
  by rewrite replace_absent.
Qed.

End IndexEntry.


(** X18.  When the word of the command is the short word followed by a
    rest in which the short word does not occur, the word of the entry is
    the short word alone if the rest is empty, and otherwise the short
    word followed by the rest between escaped double brackets. *)
Theorem entry_word_prefix (short_cmd_e rest : pystr)
    (Hshort : short_cmd_e <> [])
    (Hrest : occurs short_cmd_e rest = false) :
  entry_word (short_cmd_e ++ rest) short_cmd_e
  = if bool_decide (rest = []) then short_cmd_e
    else short_cmd_e ++ py "\[\[" ++ rest ++ py "]]".
Proof.
  unfold entry_word. by rewrite (replace_prefix _ [] rest).
Qed.

Lemma entry_word_prefix_witness :
  entry_word (py "interface") (py "int") = py "int\[\[erface]]".
Proof. apply (entry_word_prefix (py "int") (py "erface")); [discriminate|reflexivity]. Defined.
(** ** The name of the file of the parsed sample *)

Section YmlFile.

Lemma join_onto_end path b : exists p, join_onto path b = p ++ b.
Proof.
  unfold join_onto. destruct (startswith_sep b); [by exists []|].
  destruct (bool_decide (path = []) || endswith_sep path).
  - by exists path.
  - exists (path ++ [SLASH]). by rewrite <- app_assoc.
Qed.

Lemma raw_file_stem (vendor vender_os command : pystr) (index : Z) raw_file template_file :
  get_test_files (Some vendor) vender_os command index = Ok (raw_file, template_file) ->
  exists stem, raw_file = stem ++ py ".raw".
Proof.
  unfold get_test_files, os_path_join. cbn [foldl]. intros [= <- _].
  match goal with
  | |- context [join_onto ?a (?b ++ py ".raw")] =>
      destruct (join_onto_end a (b ++ py ".raw")) as [p ->]; exists (p ++ b)
  end.
  apply app_assoc.
Qed.

Lemma startswith_raw stem :
  startswith (py "raw") (stem ++ py ".raw") = startswith (py "raw") (stem ++ py ".ra").
Proof. by destruct stem as [|a [|b [|c stem]]]. Qed.

Lemma replace_raw stem :
  replace_from (py "raw") (py "yml") 0 (stem ++ py ".raw") = stem ++ py ".yml"
  <-> occurs (py "raw") (stem ++ py ".ra") = false.
Proof.
  induction stem as [|c stem IH]; [done|].
  cbn [app occurs replace_from]. change (c :: stem ++ py ".raw") with ((c :: stem) ++ py ".raw").
  rewrite (startswith_raw (c :: stem)). cbn [app].
  destruct (startswith (py "raw") (c :: stem ++ py ".ra")) eqn:E.
  - split; [|done]. intros H. apply startswith_inv in E as [t Et].
    injection Et as -> _. discriminate H.
  - cbn [orb]. rewrite <- IH. split; [by intros [= ->]|by intros ->].
Qed.

End YmlFile.

(** X19.  The name of a raw file ends in [.raw], and the name computed for
    the file of the parsed sample is the same name ending in [.yml]
    exactly when the three letters [raw] occur nowhere else in it:
    otherwise the replacement also changes the directory or the name. *)
Theorem yml_file_name (vendor vender_os command raw_file template_file : pystr)
    (index : Z)
    (Hfiles : get_test_files (Some vendor) vender_os command index
              = Ok (raw_file, template_file)) :
  exists stem,
    raw_file = stem ++ py ".raw"
    /\ (yml_file raw_file = stem ++ py ".yml"
        <-> occurs (py "raw") (stem ++ py ".ra") = false).
Proof.
  destruct (raw_file_stem _ _ _ _ _ _ Hfiles) as [stem ->].
  exists stem. split; [done|]. apply replace_raw.
Qed.

Lemma yml_file_name_witness :
  exists stem,
    py "tests/cisco_ios/show_version/cisco_ios_show_version2.raw" = stem ++ py ".raw"
    /\ (yml_file (py "tests/cisco_ios/show_version/cisco_ios_show_version2.raw")
        = stem ++ py ".yml"
        <-> occurs (py "raw") (stem ++ py ".ra") = false).
Proof.
  apply (yml_file_name (py "cisco_ios") (py "cisco_ios") (py "show version") _
           (py "ntc_templates/templates/cisco_ios_show_version.textfsm") 2).
  vm_compute. reflexivity.
Defined.
